(** * Glow Up backend (main.py): a shallow embedding and its contract

    The service is a FastAPI application over one SQLite database (tables
    posts, ratings, reactions) and one flat upload directory.  Every route
    handler of main.py is embedded as a function from the stored state to a
    response and a new stored state.  What the handlers draw from the
    environment (os.urandom behind uuid.uuid4, the clock behind
    datetime.utcnow) is passed in as an argument. *)

From stdpp Require Import gmap strings list fin_maps sorting.
From Stdlib Require Import ZArith Ascii Lia Floats Uint63.

Local Open Scope Z_scope.

(** ** Lower-case hexadecimal digits, as '%x' and hexdigest print them *)

Module Hex.

Definition hexdigit (d : Z) : ascii :=
  ascii_of_N (Z.to_N (if d <? 10 then 48 + d else 87 + d)).

(** Digit number [i] of [x], counting from the least significant. *)
Definition nibble (i x : Z) : ascii := hexdigit ((x / 16 ^ i) mod 16).

Definition digits (positions : list Z) (x : Z) : string :=
  String.string_of_list_ascii (map (fun i => nibble i x) positions).

End Hex.

(** ** hashlib.sha256 (FIPS 180-4) on byte strings *)

Module SHA256.

Import Hex.

Definition w32 (x : Z) : Z := x mod 2 ^ 32.
Definition add32 (a b : Z) : Z := w32 (a + b).
Definition not32 (x : Z) : Z := Z.lxor x 0xffffffff.
Definition rotr (n x : Z) : Z :=
  Z.lor (Z.shiftr x n) (w32 (Z.shiftl x (32 - n))).
Definition shr (n x : Z) : Z := Z.shiftr x n.

Definition Ch (x y z : Z) : Z := Z.lxor (Z.land x y) (Z.land (not32 x) z).
Definition Maj (x y z : Z) : Z :=
  Z.lxor (Z.lxor (Z.land x y) (Z.land x z)) (Z.land y z).
Definition Sigma0 (x : Z) : Z := Z.lxor (Z.lxor (rotr 2 x) (rotr 13 x)) (rotr 22 x).
Definition Sigma1 (x : Z) : Z := Z.lxor (Z.lxor (rotr 6 x) (rotr 11 x)) (rotr 25 x).
Definition sigma0 (x : Z) : Z := Z.lxor (Z.lxor (rotr 7 x) (rotr 18 x)) (shr 3 x).
Definition sigma1 (x : Z) : Z := Z.lxor (Z.lxor (rotr 17 x) (rotr 19 x)) (shr 10 x).

(** The round constants and the initial chaining value are defined as
    FIPS 180-4 defines them: the first 32 bits of the fractional parts of
    the cube roots of the first 64 primes, and of the square roots of the
    first 8. *)
Definition is_prime (p : Z) : bool :=
  forallb (fun d => negb (p mod d =? 0))
          (List.filter (fun d => d * d <=? p) (map Z.of_nat (seq 2 (Z.to_nat p - 2)))).

Definition primes : list Z :=
  List.filter is_prime (map Z.of_nat (seq 2 310)).

(** Integer cube root, one bit at a time from bit 35 down. *)
Definition iroot3 (n : Z) : Z :=
  fold_left (fun r i => let r' := r + 2 ^ Z.of_nat i in
                        if r' * r' * r' <=? n then r' else r)
            (rev (seq 0 36)) 0.

Definition K : list Z :=
  map (fun p => w32 (iroot3 (p * 2 ^ 96))) (take 64 primes).

(** The eight working variables a..h, and also the chaining value. *)
Record regs := Regs { ra : Z; rb : Z; rc : Z; rd : Z; re : Z; rf : Z; rg : Z; rh : Z }.

Definition H0 : regs :=
  let h := fun i => w32 (Z.sqrt (nth i primes 0 * 2 ^ 64)) in
  Regs (h 0%nat) (h 1%nat) (h 2%nat) (h 3%nat) (h 4%nat) (h 5%nat) (h 6%nat) (h 7%nat).

(** Padding: 0x80, zero bytes up to 56 mod 64, the bit length on 8 bytes. *)
Definition be_bytes (n : nat) (x : Z) : list Z :=
  map (fun i => (x / 2 ^ (8 * Z.of_nat i)) mod 256) (rev (seq 0 n)).

Definition pad (msg : list Z) : list Z :=
  let len := Z.of_nat (length msg) in
  let k := (55 - len) mod 64 in
  msg ++ [0x80] ++ repeat 0 (Z.to_nat k) ++ be_bytes 8 (8 * len).

Definition be_word (b : list Z) : Z :=
  fold_left (fun acc x => acc * 256 + x) b 0.

Fixpoint words (n : nat) (bytes : list Z) : list Z :=
  match n with
  | O => []
  | S n' => be_word (take 4 bytes) :: words n' (drop 4 bytes)
  end.

Fixpoint blocks (n : nat) (bytes : list Z) : list (list Z) :=
  match n with
  | O => []
  | S n' => words 16 (take 64 bytes) :: blocks n' (drop 64 bytes)
  end.

(** Message schedule; [recent] holds W[t-1], W[t-2], ... newest first. *)
Fixpoint extend (n : nat) (recent : list Z) : list Z :=
  match n with
  | O => recent
  | S n' =>
      let w := add32 (add32 (sigma1 (nth 1 recent 0)) (nth 6 recent 0))
                     (add32 (sigma0 (nth 14 recent 0)) (nth 15 recent 0)) in
      extend n' (w :: recent)
  end.

Definition schedule (block : list Z) : list Z := rev (extend 48 (rev block)).

Definition round (s : regs) (kw : Z * Z) : regs :=
  let t1 := add32 (add32 (add32 (rh s) (Sigma1 (re s))) (Ch (re s) (rf s) (rg s)))
                  (add32 (fst kw) (snd kw)) in
  let t2 := add32 (Sigma0 (ra s)) (Maj (ra s) (rb s) (rc s)) in
  Regs (add32 t1 t2) (ra s) (rb s) (rc s) (add32 (rd s) t1) (re s) (rf s) (rg s).

Definition compress (h : regs) (block : list Z) : regs :=
  let s := fold_left round (combine K (schedule block)) h in
  Regs (add32 (ra h) (ra s)) (add32 (rb h) (rb s)) (add32 (rc h) (rc s))
       (add32 (rd h) (rd s)) (add32 (re h) (re s)) (add32 (rf h) (rf s))
       (add32 (rg h) (rg s)) (add32 (rh h) (rh s)).

Definition digest (msg : list Z) : regs :=
  let p := pad msg in
  fold_left compress (blocks (length p / 64)%nat p) H0.

Definition hex8 (x : Z) (rest : string) : string :=
  String (nibble 7 x) (String (nibble 6 x) (String (nibble 5 x) (String (nibble 4 x)
 (String (nibble 3 x) (String (nibble 2 x) (String (nibble 1 x) (String (nibble 0 x)
  rest))))))).

Definition hex (h : regs) : string :=
  hex8 (ra h) (hex8 (rb h) (hex8 (rc h) (hex8 (rd h)
 (hex8 (re h) (hex8 (rf h) (hex8 (rg h) (hex8 (rh h) EmptyString))))))).

Definition bytes_of_string (s : string) : list Z :=
  map (fun c => Z.of_N (N_of_ascii c)) (String.list_ascii_of_string s).

Definition hexdigest (s : string) : string := hex (digest (bytes_of_string s)).

End SHA256.


(** ** uuid.uuid4 and str(UUID) *)

Module UUID.

(** [uuid4 rnd] is [UUID(bytes=os.urandom(16), version=4).int], where
    [rnd] is the integer the sixteen random bytes spell: the variant bits
    are set to RFC 4122 and the version nibble to 4. *)
Definition uuid4 (rnd : Z) : Z :=
  let i := rnd mod 2 ^ 128 in
  let i := Z.land i (Z.lnot (Z.shiftl 0xc000 48)) in
  let i := Z.lor i (Z.shiftl 0x8000 48) in
  let i := Z.land i (Z.lnot (Z.shiftl 0xf000 64)) in
  Z.lor i (Z.shiftl 4 76).

(** [str u]: '%032x' % int, cut as 8-4-4-4-12 and joined by dashes. *)
Definition str (u : Z) : string :=
  Hex.digits [31; 30; 29; 28; 27; 26; 25; 24] u +:+ "-" +:+
  Hex.digits [23; 22; 21; 20] u +:+ "-" +:+
  Hex.digits [19; 18; 17; 16] u +:+ "-" +:+
  Hex.digits [15; 14; 13; 12] u +:+ "-" +:+
  Hex.digits [11; 10; 9; 8; 7; 6; 5; 4; 3; 2; 1; 0] u.

End UUID.

(** ** datetime.utcnow().isoformat() *)

Record datetime := Datetime {
  year : Z; month : Z; day : Z;
  hour : Z; minute : Z; second : Z; microsecond : Z
}.

(** The ranges Python's datetime type enforces on its fields (the length of
    the month is left out: the ordering results do not need it). *)
Definition valid_datetime (d : datetime) : Prop :=
  1 <= year d <= 9999 /\ 1 <= month d <= 12 /\ 1 <= day d <= 31 /\
  0 <= hour d <= 23 /\ 0 <= minute d <= 59 /\ 0 <= second d <= 59 /\
  0 <= microsecond d <= 999999.

Definition digit (d : Z) : ascii := ascii_of_N (Z.to_N (48 + d)).

(** [zfill w x rest]: the last [w] decimal digits of [x], then [rest]; this is
    '%0wd' % x whenever 0 <= x < 10^w, which the ranges above guarantee. *)
Fixpoint zfill (w : nat) (x : Z) (rest : string) : string :=
  match w with
  | O => rest
  | S w' => zfill w' (x / 10) (String (digit (x mod 10)) rest)
  end.

(** "YYYY-MM-DDTHH:MM:SS", followed by ".ffffff" unless microsecond is 0. *)
Definition isoformat (d : datetime) : string :=
  zfill 4 (year d) (String "-" (zfill 2 (month d) (String "-" (zfill 2 (day d)
 (String "T" (zfill 2 (hour d) (String ":" (zfill 2 (minute d) (String ":"
 (zfill 2 (second d)
    (if microsecond d =? 0 then EmptyString
     else String "." (zfill 6 (microsecond d) EmptyString)))))))))))).

(** Chronological comparison: lexicographic on the fields. *)
Definition lex (c : comparison) (rest : comparison) : comparison :=
  match c with Eq => rest | _ => c end.

Definition datetime_compare (a b : datetime) : comparison :=
  lex (year a ?= year b) (lex (month a ?= month b) (lex (day a ?= day b)
 (lex (hour a ?= hour b) (lex (minute a ?= minute b) (lex (second a ?= second b)
      (microsecond a ?= microsecond b)))))).

(** ** IEEE 754 binary64, as far as AVG and round need it

    A double is kept as mantissa * 2^exponent.  SQLite's AVG over an INTEGER
    column divides the integer sum by the row count in double precision;
    both are converted exactly as long as they stay below 2^53, so the
    result is the correctly rounded quotient computed by [div_int]. *)

Module Binary64.

Record t := Make { mantissa : Z; exponent : Z }.

(** Nearest integer to a/b (b > 0), ties to the even one. *)
Definition rne_div (a b : Z) : Z :=
  let q := a / b in
  let r := a mod b in
  if 2 * r <? b then q
  else if b <? 2 * r then q + 1
  else if Z.even q then q else q + 1.

(** n * 2^e <= a, for either sign of e. *)
Definition le_scaled (e n a : Z) : bool :=
  if 0 <=? e then n * 2 ^ e <=? a else n <=? a * 2 ^ (- e).

(** The binary exponent k of a/n: 2^k <= a/n < 2^(k+1), for a, n > 0. *)
Definition ilog2_quot (a n : Z) : Z :=
  let g := Z.log2 a - Z.log2 n in
  if le_scaled g n a then g else g - 1.

(** round-to-nearest-even of s/n to 53 significant bits (n > 0). *)
Definition div_int (s n : Z) : t :=
  if s =? 0 then Make 0 0
  else
    let e := ilog2_quot (Z.abs s) n - 52 in
    Make (if 0 <=? e then rne_div s (n * 2 ^ e) else rne_div (s * 2 ^ (- e)) n) e.

(** Python's truth value of a float: anything but zero. *)
Definition truthy (x : t) : bool := negb (mantissa x =? 0).

(** Python's [round(x, 1)].  CPython rounds the exact binary value of x to
    one decimal place, ties to even, and returns the double nearest to that
    decimal; the JSON encoder then prints the shortest decimal that denotes
    this double, which is the same one-place decimal.  The result is given
    in tenths: 80 stands for 8.0. *)
Definition round1 (x : t) : Z :=
  if 0 <=? exponent x then 10 * mantissa x * 2 ^ exponent x
  else rne_div (10 * mantissa x) (2 ^ (- exponent x)).

(** The hardware's double, for checking [div_int] against the processor's
    own division. *)
Definition to_float (x : t) : float :=
  Z.ldexp (PrimFloat.of_uint63 (Uint63.of_Z (mantissa x))) (exponent x).

Definition hardware_div (s n : Z) : float :=
  PrimFloat.div (PrimFloat.of_uint63 (Uint63.of_Z s)) (PrimFloat.of_uint63 (Uint63.of_Z n)).

(** Every sum s that n scores between 1 and 10 can have, for n up to 40. *)
Definition small_means : list (Z * Z) :=
  flat_map (fun n => map (fun s => (Z.of_nat s, Z.of_nat n)) (seq n (9 * n + 1))) (seq 1 40).

End Binary64.

(** ** The stored state: three tables and the upload directory *)

Record post := Post {
  post_id : string;                  (* id TEXT PRIMARY KEY *)
  post_username : string;
  post_caption : string;
  post_category : string;
  post_image_url : string;           (* the file name under uploads/ *)
  post_share_token : string;         (* share_token TEXT UNIQUE NOT NULL *)
  post_pin_hash : option string;     (* pin_hash TEXT, NULL as None *)
  post_created_at : string
}.

Record rating := Rating {
  rating_id : Z;                     (* INTEGER PRIMARY KEY AUTOINCREMENT *)
  rating_post_id : string;
  rating_rater_name : string;
  rating_score : Z;                  (* CHECK(score BETWEEN 1 AND 10) *)
  rating_created_at : string
}.

Record reaction := Reaction {
  reaction_id : Z;                   (* INTEGER PRIMARY KEY AUTOINCREMENT *)
  reaction_post_id : string;
  reaction_emoji : string;
  reaction_created_at : string
}.

(** Rows are kept in rowid order.  [db_ratings_seq] and [db_reactions_seq]
    are the sqlite_sequence entries behind AUTOINCREMENT. *)
Record store := Store {
  db_posts : list post;
  db_ratings : list rating;
  db_ratings_seq : Z;
  db_reactions : list reaction;
  db_reactions_seq : Z;
  uploads : gmap string (list Byte.byte)   (* UPLOAD_DIR: file name to content *)
}.

(** [init_db] on a fresh deployment: empty tables, empty upload directory. *)
Definition init_db : store := Store [] [] 0 [] 0 ∅.

(** What a handler hands back to FastAPI: a JSON value, an HTTPException, or
    an exception nobody catches (a 500 response). *)
Inductive response (A : Type) : Type :=
  | Ok (body : A)
  | HTTPException (status_code : Z) (detail : string)
  | Uncaught (exc : string).

Arguments Ok {A} body.
Arguments HTTPException {A} status_code detail.
Arguments Uncaught {A} exc.

(** ** Helpers of main.py *)

(** hash_pin: hashlib.sha256(pin.encode()).hexdigest(); a string is held as
    its UTF-8 bytes, so encode is the identity. *)
Definition hash_pin (pin : string) : string := SHA256.hexdigest pin.

(** Python truth value of an Optional[str]: None and the empty string are
    false. *)
Definition truthy_str (o : option string) : bool :=
  match o with
  | Some s => negb (String.eqb s "")
  | None => false
  end.

(** SELECT ... FROM posts WHERE share_token=? OR id=?  + fetchone(): the first
    matching row in table order. *)
Definition matches_token (token : string) (p : post) : bool :=
  String.eqb (post_share_token p) token || String.eqb (post_id p) token.

Definition find_post (token : string) (st : store) : option post :=
  List.find (matches_token token) (db_posts st).

Definition ratings_of (pid : string) (st : store) : list rating :=
  List.filter (fun r => String.eqb (rating_post_id r) pid) (db_ratings st).

Definition reactions_of (pid : string) (st : store) : list reaction :=
  List.filter (fun r => String.eqb (reaction_post_id r) pid) (db_reactions st).

Definition sum_Z (l : list Z) : Z := fold_right Z.add 0 l.

(** SELECT AVG(score): NULL over no rows. *)
Definition sql_avg (scores : list Z) : option Binary64.t :=
  match scores with
  | [] => None
  | _ => Some (Binary64.div_int (sum_Z scores) (Z.of_nat (length scores)))
  end.

(** SELECT emoji, COUNT( * ) ... GROUP BY emoji: one row per distinct emoji. *)
Definition occurrences (e : string) (l : list string) : Z :=
  Z.of_nat (length (List.filter (String.eqb e) l)).

Definition group_count (emojis : list string) : list (string * Z) :=
  map (fun e => (e, occurrences e emojis)) (remove_dups emojis).

Record stats := Stats {
  avg_rating : option Z;             (* in tenths; None is JSON null *)
  total_ratings : Z;
  reactions : gmap string Z
}.

Definition post_stats (pid : string) (conn : store) : stats :=
  let avg := sql_avg (map rating_score (ratings_of pid conn)) in
  let total := Z.of_nat (length (ratings_of pid conn)) in
  let rows := group_count (map reaction_emoji (reactions_of pid conn)) in
  {| avg_rating :=
       match avg with
       | Some x => if Binary64.truthy x then Some (Binary64.round1 x) else None
       | None => None
       end;
     total_ratings := total;
     reactions := fold_left (fun d r => <[fst r := snd r]> d) rows ∅ |}.

Record post_object := PostObject {
  po_id : string;
  po_username : string;
  po_caption : string;
  po_category : string;
  po_image_url : string;
  po_share_token : string;
  po_created_at : string;
  po_stats : stats                   (* the three keys spliced in by **stats *)
}.

Definition serialize_post (row : post) (base_url : string) (st : store) : post_object :=
  {| po_id := post_id row;
     po_username := post_username row;
     po_caption := post_caption row;
     po_category := post_category row;
     po_image_url := base_url +:+ "/uploads/" +:+ post_image_url row;
     po_share_token := post_share_token row;
     po_created_at := post_created_at row;
     po_stats := post_stats (post_id row) st |}.

(** ** Routes *)

(** FastAPI's UploadFile, as far as create_post reads it. *)
Record upload_file := UploadFile {
  content_type : string;
  filename : string;
  file : list Byte.byte
}.

(** [filename.rsplit(".", 1)[-1]] when "." occurs in the name, else None. *)
Fixpoint after_last_dot (s : string) : option string :=
  match s with
  | EmptyString => None
  | String c s' =>
      match after_last_dot s' with
      | Some e => Some e
      | None => if Ascii.eqb c "." then Some s' else None
      end
  end.

Definition has_char (c : ascii) (s : string) : bool :=
  existsb (Ascii.eqb c) (String.list_ascii_of_string s).

Definition set_uploads (st : store) (u : gmap string (list Byte.byte)) : store :=
  Store (db_posts st) (db_ratings st) (db_ratings_seq st)
        (db_reactions st) (db_reactions_seq st) u.

Definition set_posts (st : store) (ps : list post) : store :=
  Store ps (db_ratings st) (db_ratings_seq st)
        (db_reactions st) (db_reactions_seq st) (uploads st).

(** INSERT INTO posts: refused (sqlite3.IntegrityError) when the PRIMARY KEY
    id or the UNIQUE share_token is already taken. *)
Definition insert_post (row : post) (st : store) : option store :=
  if existsb (fun p => String.eqb (post_id p) (post_id row)
                       || String.eqb (post_share_token p) (post_share_token row))
             (db_posts st)
  then None
  else Some (set_posts st (db_posts st ++ [row])).

(** INSERT INTO ratings: AUTOINCREMENT id, CHECK(score BETWEEN 1 AND 10). *)
Definition insert_rating (pid rater_name : string) (score : Z) (created_at : string)
    (st : store) : option store :=
  if (1 <=? score) && (score <=? 10) then
    let i := db_ratings_seq st + 1 in
    Some (Store (db_posts st)
                (db_ratings st ++ [Rating i pid rater_name score created_at]) i
                (db_reactions st) (db_reactions_seq st) (uploads st))
  else None.

Definition insert_reaction (pid emoji created_at : string) (st : store) : store :=
  let i := db_reactions_seq st + 1 in
  Store (db_posts st) (db_ratings st) (db_ratings_seq st)
        (db_reactions st ++ [Reaction i pid emoji created_at]) i (uploads st).

(** DELETE FROM posts WHERE id=?.  [get_db] opens every connection with
    sqlite3's defaults and main.py never runs PRAGMA foreign_keys = ON, so
    SQLite does not enforce the FOREIGN KEY ... ON DELETE CASCADE clauses of
    the schema: the statement removes rows of posts and nothing else. *)
Definition delete_post_row (pid : string) (st : store) : store :=
  set_posts st (List.filter (fun p => negb (String.eqb (post_id p) pid)) (db_posts st)).

Record created := Created {
  created_id : string;
  created_share_token : string;
  created_share_url : string
}.

(** POST /fits.  [rnd1] and [rnd2] are the random bytes behind the two
    uuid.uuid4() calls, [now] is datetime.utcnow(); the request_base
    parameter is never read and is left out.  The upload directory is flat:
    a NUL in the extension makes open() raise ValueError and a "/" makes it
    raise an OSError, since no directory of that name exists.  Other failures
    of the operating system are not modelled. *)
Definition create_post (username caption category : string) (pin : option string)
    (image : upload_file) (rnd1 rnd2 : Z) (now : datetime) (st : store)
    : response created * store :=
  if negb (String.prefix "image/" (content_type image)) then
    (HTTPException 400 "File must be an image", st)
  else
    let pid := UUID.str (UUID.uuid4 rnd1) in
    let share_token := String.substring 0 8 (UUID.str (UUID.uuid4 rnd2)) in
    let ext := match after_last_dot (filename image) with
               | Some e => e
               | None => "jpg"%string
               end in
    let fname := pid +:+ "." +:+ ext in
    if has_char "000" ext then (Uncaught "ValueError", st)
    else if has_char "/" ext then (Uncaught "OSError", st)
    else
      let st1 := set_uploads st (<[fname := file image]> (uploads st)) in
      let pin_hash := match pin with
                      | Some p => if truthy_str pin then Some (hash_pin p) else None
                      | None => None
                      end in
      let row := Post pid username caption category fname share_token pin_hash
                      (isoformat now) in
      match insert_post row st1 with
      | None => (Uncaught "sqlite3.IntegrityError", st1)
      | Some st2 => (Ok (Created pid share_token ("/rate/" +:+ share_token)), st2)
      end.

(** ORDER BY created_at DESC: TEXT values compare byte by byte (BINARY
    collation).  SQLite sorts by merging; the order among rows with equal
    keys is unspecified and nothing below depends on it. *)
Definition created_at_desc (p q : post) : Prop :=
  String.leb (post_created_at q) (post_created_at p) = true.

#[global] Instance created_at_desc_dec : RelDecision created_at_desc.
Proof. intros p q. unfold created_at_desc. apply _. Defined.

(** GET /fits *)
Definition get_posts (request_base : string) (st : store)
    : response (list post_object) * store :=
  let rows := merge_sort created_at_desc (db_posts st) in
  (Ok (map (fun r => serialize_post r request_base st) rows), st).

(** GET /fits/{token} *)
Definition get_post (token request_base : string) (st : store)
    : response post_object * store :=
  match find_post token st with
  | None => (HTTPException 404 "Post not found", st)
  | Some row => (Ok (serialize_post row request_base st), st)
  end.

(** POST /fits/{token}/rate *)
Definition rate_post (token : string) (score : Z) (rater_name : string)
    (now : datetime) (st : store) : response (string * stats) * store :=
  if negb ((1 <=? score) && (score <=? 10)) then
    (HTTPException 400 "Score must be 1-10", st)
  else
    match find_post token st with
    | None => (HTTPException 404 "Post not found", st)
    | Some post =>
        match insert_rating (post_id post) rater_name score (isoformat now) st with
        | None => (Uncaught "sqlite3.IntegrityError", st)
        | Some st' => (Ok ("Rated! ✨"%string, post_stats (post_id post) st'), st')
        end
    end.

(** POST /fits/{token}/react *)
Definition react_post (token emoji : string) (now : datetime) (st : store)
    : response (string * gmap string Z) * store :=
  match find_post token st with
  | None => (HTTPException 404 "Post not found", st)
  | Some post =>
      let st' := insert_reaction (post_id post) emoji (isoformat now) st in
      (Ok ("Reacted!"%string, reactions (post_stats (post_id post) st')), st')
  end.

(** The PIN check of delete_post:
    [if post["pin_hash"]: if not pin or hash_pin(pin) != post["pin_hash"]]. *)
Definition pin_refused (stored pin : option string) : bool :=
  match stored with
  | Some h =>
      truthy_str stored &&
      match pin with
      | Some p => negb (truthy_str pin) || negb (String.eqb (hash_pin p) h)
      | None => true
      end
  | None => false
  end.

(** DELETE /fits/{token}.  os.path.exists + os.remove on the flat upload
    directory is [delete] on the map, which leaves a missing name alone. *)
Definition delete_post (token : string) (pin : option string) (st : store)
    : response string * store :=
  match find_post token st with
  | None => (HTTPException 404 "Post not found", st)
  | Some post =>
      if pin_refused (post_pin_hash post) pin then
        (HTTPException 403 "Invalid PIN", st)
      else
        let st1 := set_uploads st (delete (post_image_url post) (uploads st)) in
        (Ok "Post deleted ✨"%string, delete_post_row (post_id post) st1)
  end.

(** ** Requests and the states the service can reach *)

Inductive request :=
  | CreatePost (username caption category : string) (pin : option string)
               (image : upload_file) (rnd1 rnd2 : Z) (now : datetime)
  | GetPosts (request_base : string)
  | GetPost (token request_base : string)
  | RatePost (token : string) (score : Z) (rater_name : string) (now : datetime)
  | ReactPost (token emoji : string) (now : datetime)
  | DeletePost (token : string) (pin : option string).

(** The stored state after serving a request. *)
Definition handle (r : request) (st : store) : store :=
  match r with
  | CreatePost u c g pin img r1 r2 now => snd (create_post u c g pin img r1 r2 now st)
  | GetPosts b => snd (get_posts b st)
  | GetPost t b => snd (get_post t b st)
  | RatePost t s n now => snd (rate_post t s n now st)
  | ReactPost t e now => snd (react_post t e now st)
  | DeletePost t pin => snd (delete_post t pin st)
  end.

(** The clock hands out datetimes within Python's ranges. *)
Definition clock_ok (r : request) : Prop :=
  match r with
  | CreatePost _ _ _ _ _ _ _ now | RatePost _ _ _ now | ReactPost _ _ now =>
      valid_datetime now
  | _ => True
  end.

Inductive reachable : store -> Prop :=
  | reachable_init : reachable init_db
  | reachable_step st r : reachable st -> clock_ok r -> reachable (handle r st).

(** ** What the schema and the handlers keep true of the stored state *)

(** id is the PRIMARY KEY of posts and share_token is UNIQUE. *)
Definition unique_keys (st : store) : Prop :=
  NoDup (map post_id (db_posts st)) /\ NoDup (map post_share_token (db_posts st)).

(** A row as create_post writes it: a 36-character id, an 8-character share
    token, a pin_hash that is NULL or the digest of a non-empty PIN, and a
    created_at printed from a datetime. *)
Definition post_ok (p : post) : Prop :=
  String.length (post_id p) = 36%nat /\
  String.length (post_share_token p) = 8%nat /\
  (forall h, post_pin_hash p = Some h -> exists pin, pin <> ""%string /\ h = hash_pin pin) /\
  (exists d, valid_datetime d /\ post_created_at p = isoformat d).

Definition rating_ok (r : rating) : Prop := 1 <= rating_score r <= 10.

Definition consistent (st : store) : Prop :=
  unique_keys st /\ Forall post_ok (db_posts st) /\ Forall rating_ok (db_ratings st).

(** [token] is one of the two names a post answers to. *)
Definition names (token : string) (p : post) : Prop :=
  token = post_share_token p \/ token = post_id p.

(** A PIN counts as supplied when the query parameter is present and not the
    empty string, which is how delete_post's [not pin] reads it. *)
Definition supplied_pin_matches (pin : option string) (h : string) : Prop :=
  exists s, pin = Some s /\ s <> ""%string /\ hash_pin s = h.


(** ** A concrete run

    Ada posts a picture without a PIN; it is rated 8, 6 and 10 and gets the
    reactions "🔥", "😍", "🔥"; then Bob posts one protected by the PIN
    "1234". *)

Module Demo.

Definition noon : datetime := Datetime 2024 5 17 12 0 0 0.
Definition later : datetime := Datetime 2024 5 17 12 0 0 250000.

Definition photo : upload_file := UploadFile "image/png" "fit.png" [].

Definition id_a : string := "11111111-2222-4333-8444-555566667777".
Definition token_a : string := "a1b2c3d4".
Definition id_b : string := "99999999-8888-4777-a666-555544443333".
Definition token_b : string := "0badcafe".

Definition requests : list request :=
  [ CreatePost "ada" "new fit" "fit" None photo
      0x11111111222233334444555566667777 0xa1b2c3d4000000000000000000000000 noon;
    RatePost token_a 8 "Anonymous" noon;
    RatePost token_a 6 "Anonymous" noon;
    RatePost id_a 10 "bob" noon;
    ReactPost token_a "🔥" noon;
    ReactPost token_a "😍" noon;
    ReactPost id_a "🔥" noon;
    CreatePost "bob" "" "other" (Some "1234"%string) photo
      0x99999999888877776666555544443333 0x0badcafe000000000000000000000000 later ].

Definition run (rs : list request) (st : store) : store :=
  fold_left (fun st r => handle r st) rs st.

Definition st : store := run requests init_db.

Definition post_a : post :=
  Post id_a "ada" "new fit" "fit" (id_a +:+ ".png") token_a None (isoformat noon).

Definition post_b : post :=
  Post id_b "bob" "" "other" (id_b +:+ ".png") token_b (Some (hash_pin "1234"))
       (isoformat later).

End Demo.

(** ** Further vocabulary: file names, character sets, addressed posts *)

(** The extension create_post gives the stored file: what follows the last
    "." of the uploaded name, "jpg" when the name has no ".". *)
Definition extension (fname : string) : string :=
  match after_last_dot fname with
  | Some e => e
  | None => "jpg"%string
  end.

(** The name create_post stores an upload under: f"{post_id}.{ext}". *)
Definition stored_name (pid fname : string) : string :=
  pid +:+ "." +:+ extension fname.

(** The token by which a rating or a reaction addresses its post. *)
Definition addressed (r : request) : option string :=
  match r with
  | RatePost t _ _ _ | ReactPost t _ _ => Some t
  | _ => None
  end.

Definition all_chars (f : ascii -> bool) (s : string) : bool :=
  forallb f (String.list_ascii_of_string s).

Definition is_hex (c : ascii) : bool := has_char c "0123456789abcdef".

Definition is_hex_or_dash (c : ascii) : bool := is_hex c || Ascii.eqb c "-".

(** Every stored post points at a file of the upload directory named after
    its id. *)
Definition image_on_disk (st : store) (p : post) : Prop :=
  (exists ext, post_image_url p = post_id p +:+ "." +:+ ext) /\
  is_Some (uploads st !! post_image_url p).

(** AUTOINCREMENT hands out 1, 2, 3, ... *)
Definition consecutive_from_1 (ids : list Z) : Prop :=
  ids = map Z.of_nat (seq 1 (length ids)).

(** Row ids and sequence counters as AUTOINCREMENT keeps them while no row
    is ever deleted. *)
Definition autoincrement_ok (st : store) : Prop :=
  consecutive_from_1 (map rating_id (db_ratings st)) /\
  db_ratings_seq st = Z.of_nat (length (db_ratings st)) /\
  consecutive_from_1 (map reaction_id (db_reactions st)) /\
  db_reactions_seq st = Z.of_nat (length (db_reactions st)).


(** ** The concrete run, continued

    Cy uploads a picture named "nails" (no extension) with the PIN
    "open sesame"; a second upload draws the share token Ada's post
    already has. *)

Module Later.

Definition upload : upload_file :=
  UploadFile "image/jpeg" "nails" [Byte.xff; Byte.xd8; Byte.xff].

Definition id_c : string := "01234567-89ab-4def-8123-456789abcdef".
Definition token_c : string := "feedf00d".

Definition outcome : response created * store :=
  create_post "cy" "fresh set" "nails" (Some "open sesame"%string) upload
    0x0123456789abcdef0123456789abcdef 0xfeedf00d000000000000000000000000
    Demo.later Demo.st.


End Later.

(** * Properties *)

#[local] Arguments hash_pin : simpl never.
#[local] Arguments isoformat : simpl never.
#[local] Arguments UUID.str : simpl never.

(** ** Strings, digests and generated identifiers *)

Lemma eqb_true_iff (a b : string) : String.eqb a b = true <-> a = b.
Proof. apply String.eqb_eq. Qed.

Lemma eqb_false_iff (a b : string) : String.eqb a b = false <-> a <> b.
Proof. apply String.eqb_neq. Qed.

Ltac string_cases :=
  repeat match goal with
  | H : String.eqb _ _ = true |- _ => apply eqb_true_iff in H
  | H : String.eqb _ _ = false |- _ => apply eqb_false_iff in H
  | H : (_ || _)%bool = true |- _ => apply orb_true_iff in H
  | H : (_ || _)%bool = false |- _ => apply orb_false_iff in H; destruct H
  | H : (_ && _)%bool = true |- _ => apply andb_true_iff in H; destruct H
  | H : negb _ = true |- _ => apply negb_true_iff in H
  | H : negb _ = false |- _ => apply negb_false_iff in H
  end.

(** A hexdigest is always 64 characters long, so never the empty string. *)
Lemma hash_pin_length (pin : string) : String.length (hash_pin pin) = 64%nat.
Proof.
  unfold hash_pin, SHA256.hexdigest.
  destruct (SHA256.digest (SHA256.bytes_of_string pin)). reflexivity.
Qed.

Lemma hash_pin_nonempty (pin : string) : hash_pin pin <> ""%string.
Proof.
  intros E. pose proof (hash_pin_length pin) as L. rewrite E in L. discriminate L.
Qed.

Lemma uuid_str_length (u : Z) : String.length (UUID.str u) = 36%nat.
Proof. reflexivity. Qed.

Lemma share_token_length (u : Z) :
  String.length (String.substring 0 8 (UUID.str u)) = 8%nat.
Proof. reflexivity. Qed.

(** ** Looking rows up *)

Lemma find_post_some token st p :
  find_post token st = Some p ->
  p ∈ db_posts st /\ (post_share_token p = token \/ post_id p = token).
Proof.
  unfold find_post. intros H. apply find_some in H as [Hin Hm].
  split; [by apply list_elem_of_In|].
  unfold matches_token in Hm. string_cases.
  destruct Hm as [Hm|Hm]; string_cases; auto.
Qed.

Lemma find_post_none token st :
  find_post token st = None ->
  forall p, p ∈ db_posts st -> post_share_token p <> token /\ post_id p <> token.
Proof.
  unfold find_post. intros H p Hp.
  pose proof (find_none _ _ H p (proj1 (list_elem_of_In _ _) Hp)) as Hm.
  unfold matches_token in Hm. string_cases. by split.
Qed.

Lemma NoDup_map_inj {A B : Type} (f : A -> B) (l : list A) x y :
  NoDup (map f l) -> x ∈ l -> y ∈ l -> f x = f y -> x = y.
Proof.
  induction l as [|a l IH]; simpl; intros Hnd Hx Hy E.
  - by apply elem_of_nil in Hx.
  - apply NoDup_cons in Hnd as [Hna Hnd].
    apply elem_of_cons in Hx as [->|Hx]; apply elem_of_cons in Hy as [->|Hy]; auto.
    + exfalso. apply Hna. rewrite E. by apply (list_elem_of_fmap_2 f).
    + exfalso. apply Hna. rewrite <- E. by apply (list_elem_of_fmap_2 f).
Qed.

(** In a consistent state a post is found under its share token and under
    its id, and under nothing else: ids and share tokens have different
    lengths, so neither can be taken for the other. *)
Lemma find_post_names st p token :
  consistent st -> p ∈ db_posts st -> names token p -> find_post token st = Some p.
Proof.
  intros [[Hid Htok] [Hok _]] Hp Hn.
  destruct (find_post token st) as [q|] eqn:F.
  - apply find_post_some in F as [Hq Hm]. f_equal.
    rewrite Forall_forall in Hok.
    destruct (Hok _ Hp) as (Lp & Tp & _), (Hok _ Hq) as (Lq & Tq & _).
    destruct Hn as [-> | ->], Hm as [E | E].
    + by apply (NoDup_map_inj post_share_token (db_posts st)).
    + rewrite <- E in Tp. rewrite Lq in Tp. discriminate Tp.
    + rewrite <- E in Lp. rewrite Tq in Lp. discriminate Lp.
    + by apply (NoDup_map_inj post_id (db_posts st)).
  - exfalso. destruct (find_post_none _ _ F p Hp) as [H1 H2].
    destruct Hn as [-> | ->]; congruence.
Qed.

(** ** The invariant *)

Lemma existsb_false_all {A : Type} (f : A -> bool) (l : list A) :
  existsb f l = false -> forall x, x ∈ l -> f x = false.
Proof.
  induction l as [|a l IH]; simpl; intros H x Hx.
  - by apply elem_of_nil in Hx.
  - apply orb_false_iff in H as [Ha Hl].
    apply elem_of_cons in Hx as [->|Hx]; auto.
Qed.

Lemma NoDup_map_snoc {A B : Type} (f : A -> B) (l : list A) (x : A) :
  NoDup (map f l) -> (forall y, y ∈ l -> f y <> f x) -> NoDup (map f (l ++ [x])).
Proof.
  intros Hnd Hfresh. rewrite map_app. apply NoDup_app. split; [done|]. split.
  - intros b Hb Hb'. simpl in Hb'. apply list_elem_of_singleton in Hb' as ->.
    apply list_elem_of_fmap in Hb as (y & E & Hy). by apply (Hfresh y).
  - simpl. apply NoDup_singleton.
Qed.

Lemma NoDup_map_filter {A B : Type} (f : A -> B) (P : A -> bool) (l : list A) :
  NoDup (map f l) -> NoDup (map f (List.filter P l)).
Proof.
  induction l as [|a l IH]; simpl; intros Hnd; [done|].
  apply NoDup_cons in Hnd as [Hna Hnd].
  destruct (P a); simpl; auto.
  apply NoDup_cons. split; auto.
  intros Hin. apply Hna.
  apply list_elem_of_fmap in Hin as (y & E & Hy).
  apply list_elem_of_In, filter_In in Hy as [Hy _].
  rewrite E. apply (list_elem_of_fmap_2 f). by apply list_elem_of_In.
Qed.

Lemma Forall_filter {A : Type} (Q : A -> Prop) (P : A -> bool) (l : list A) :
  Forall Q l -> Forall Q (List.filter P l).
Proof.
  induction 1 as [|a l Ha Hl IH]; simpl; [constructor|].
  destruct (P a); auto.
Qed.

Lemma insert_post_unique row st st' :
  insert_post row st = Some st' -> unique_keys st -> unique_keys st'.
Proof.
  unfold insert_post.
  destruct (existsb _ _) eqn:E; [discriminate|]. intros [= <-] [Hid Htok].
  pose proof (existsb_false_all _ _ E) as Hfresh. simpl in Hfresh.
  split; simpl; apply NoDup_map_snoc; auto; intros y Hy;
    specialize (Hfresh y Hy); string_cases; assumption.
Qed.

Lemma insert_post_rows row st st' :
  insert_post row st = Some st' ->
  db_posts st' = db_posts st ++ [row] /\ db_ratings st' = db_ratings st /\
  db_reactions st' = db_reactions st /\ uploads st' = uploads st.
Proof.
  unfold insert_post. destruct (existsb _ _); [discriminate|]. by intros [= <-].
Qed.

Lemma delete_post_row_unique pid st : unique_keys st -> unique_keys (delete_post_row pid st).
Proof. intros [Hid Htok]. split; simpl; by apply NoDup_map_filter. Qed.

Lemma create_post_row_ok username caption category pin fname rnd1 rnd2 now :
  valid_datetime now ->
  post_ok (Post (UUID.str (UUID.uuid4 rnd1)) username caption category fname
                (String.substring 0 8 (UUID.str (UUID.uuid4 rnd2)))
                match pin with
                | Some p => if truthy_str pin then Some (hash_pin p) else None
                | None => None
                end
                (isoformat now)).
Proof.
  intros Hnow. repeat split; simpl.
  - intros h Hh. destruct pin as [p|]; [|discriminate].
    simpl in Hh. destruct (String.eqb p "") eqn:E; simpl in Hh; [discriminate|].
    injection Hh as <-. exists p. split; [by apply eqb_false_iff|done].
  - by exists now.
Qed.

Lemma create_post_consistent u c g pin img r1 r2 now st :
  valid_datetime now -> consistent st ->
  consistent (snd (create_post u c g pin img r1 r2 now st)).
Proof.
  intros Hnow Hc. unfold create_post.
  destruct (negb _); [exact Hc|].
  destruct (has_char "000" _); [exact Hc|].
  destruct (has_char "/" _); [exact Hc|].
  destruct (insert_post _ _) as [st2|] eqn:I; simpl.
  - destruct Hc as (Hu & Hp & Hr).
    pose proof (insert_post_unique _ _ _ I Hu) as Hu2.
    apply insert_post_rows in I as (E1 & E2 & _). simpl in E1, E2.
    split; [exact Hu2|]. rewrite E1, E2. split; [|exact Hr].
    apply Forall_app. split; [exact Hp|].
    apply Forall_cons. split; [|constructor]. by apply create_post_row_ok.
  - exact Hc.
Qed.

Lemma rate_post_consistent token score name now st :
  consistent st -> consistent (snd (rate_post token score name now st)).
Proof.
  intros Hc. unfold rate_post.
  destruct (negb _); [exact Hc|].
  destruct (find_post token st) as [p|]; [|exact Hc].
  unfold insert_rating.
  destruct ((1 <=? score) && (score <=? 10))%bool eqn:E; [|exact Hc]. simpl.
  destruct Hc as (Hu & Hp & Hr). split; [exact Hu|]. split; [exact Hp|]. simpl.
  apply Forall_app. split; [exact Hr|].
  apply Forall_cons. split; [|constructor].
  unfold rating_ok. simpl. apply andb_true_iff in E as [E1 E2]. lia.
Qed.

Lemma react_post_consistent token emoji now st :
  consistent st -> consistent (snd (react_post token emoji now st)).
Proof.
  intros Hc. unfold react_post. destruct (find_post token st); exact Hc.
Qed.

Lemma delete_post_consistent token pin st :
  consistent st -> consistent (snd (delete_post token pin st)).
Proof.
  intros Hc. unfold delete_post.
  destruct (find_post token st) as [p|]; [|exact Hc].
  destruct (pin_refused _ _); [exact Hc|]. simpl.
  destruct Hc as (Hu & Hp & Hr). split; [|split].
  - apply (delete_post_row_unique (post_id p) (set_uploads st _)), Hu.
  - simpl. by apply Forall_filter.
  - exact Hr.
Qed.

Lemma handle_consistent r st : clock_ok r -> consistent st -> consistent (handle r st).
Proof.
  destruct r; simpl; intros Hclock Hc.
  - by apply create_post_consistent.
  - exact Hc.
  - unfold get_post. destruct (find_post _ _); exact Hc.
  - by apply rate_post_consistent.
  - by apply react_post_consistent.
  - by apply delete_post_consistent.
Qed.

Lemma init_db_consistent : consistent init_db.
Proof. repeat split; simpl; constructor. Qed.

Lemma reachable_consistent st : reachable st -> consistent st.
Proof.
  induction 1 as [|st r _ IH Hclock].
  - exact init_db_consistent.
  - by apply handle_consistent.
Qed.

(** ** Uniqueness of ids and share tokens *)

Lemma handle_unique_keys r st : unique_keys st -> unique_keys (handle r st).
Proof.
  destruct r; simpl; intros Hu.
  - unfold create_post.
    destruct (negb _); [exact Hu|].
    destruct (has_char "000" _); [exact Hu|].
    destruct (has_char "/" _); [exact Hu|].
    destruct (insert_post _ _) as [st2|] eqn:I; simpl; [|exact Hu].
    by apply (insert_post_unique _ _ _ I).
  - exact Hu.
  - unfold get_post. destruct (find_post _ _); exact Hu.
  - unfold rate_post, insert_rating.
    destruct (negb _); [exact Hu|].
    destruct (find_post _ _); [|exact Hu].
    destruct (_ && _)%bool; exact Hu.
  - unfold react_post. destruct (find_post _ _); exact Hu.
  - unfold delete_post.
    destruct (find_post _ _) as [p|]; [|exact Hu].
    destruct (pin_refused _ _); [exact Hu|].
    apply (delete_post_row_unique (post_id p) (set_uploads st _)), Hu.
Qed.

(** C9.  In every state reachable from the fresh database by create, rate,
    react and delete requests (and reads) all post ids are pairwise distinct
    and all share tokens are pairwise distinct, and every request keeps this
    true of any state it starts from: the INSERT of create_post is refused
    when the PRIMARY KEY or the UNIQUE share_token is already taken. *)
Theorem unique_keys_invariant :
  forall st : store,
    (reachable st -> unique_keys st) /\
    (forall r : request, unique_keys st -> unique_keys (handle r st)).
Proof.
  intros st. split.
  - induction 1 as [|st r _ IH _].
    + split; constructor.
    + by apply handle_unique_keys.
  - intros r. apply handle_unique_keys.
Qed.

(** ** Rating *)

(** C2.  A score below 1 or above 10 is answered with 400 and the stored
    state is left as it was, whatever the token. *)
Theorem rate_post_out_of_range st token score rater_name now :
  score < 1 \/ score > 10 ->
  rate_post token score rater_name now st = (HTTPException 400 "Score must be 1-10", st).
Proof.
  intros H. unfold rate_post.
  destruct ((1 <=? score) && (score <=? 10))%bool eqn:E; [|reflexivity].
  apply andb_true_iff in E as [E1 E2]. lia.
Qed.

Lemma ratings_of_snoc pid r st st' :
  db_ratings st' = db_ratings st ++ [r] -> rating_post_id r = pid ->
  ratings_of pid st' = ratings_of pid st ++ [r].
Proof.
  intros E <-. unfold ratings_of. rewrite E, List.filter_app. simpl.
  by rewrite String.eqb_refl.
Qed.

(** C3.  With a score from 1 to 10 and a token that resolves to a post,
    rate_post answers with the stats, appends exactly one row for that post
    to ratings and touches nothing else, and the total_ratings it returns is
    the post's rating count before the call plus 1. *)
Theorem rate_post_valid st token p score rater_name now :
  find_post token st = Some p ->
  1 <= score <= 10 ->
  exists st',
    let row := Rating (db_ratings_seq st + 1) (post_id p) rater_name score (isoformat now) in
    rate_post token score rater_name now st
      = (Ok ("Rated! ✨"%string, post_stats (post_id p) st'), st') /\
    db_ratings st' = db_ratings st ++ [row] /\
    db_posts st' = db_posts st /\ db_reactions st' = db_reactions st /\
    uploads st' = uploads st /\
    ratings_of (post_id p) st' = ratings_of (post_id p) st ++ [row] /\
    total_ratings (post_stats (post_id p) st')
      = Z.of_nat (length (ratings_of (post_id p) st)) + 1 /\
    total_ratings (post_stats (post_id p) st')
      = total_ratings (post_stats (post_id p) st) + 1.
Proof.
  intros F Hs. unfold rate_post, insert_rating. rewrite F.
  assert (E : ((1 <=? score) && (score <=? 10))%bool = true).
  { apply andb_true_iff. split; lia. }
  rewrite E. simpl. eexists. split; [reflexivity|]. simpl.
  repeat (split; [reflexivity|]).
  assert (R : forall st', db_ratings st' = db_ratings st ++
            [Rating (db_ratings_seq st + 1) (post_id p) rater_name score (isoformat now)] ->
            Z.of_nat (length (ratings_of (post_id p) st'))
            = Z.of_nat (length (ratings_of (post_id p) st)) + 1).
  { intros st' E'. rewrite (ratings_of_snoc (post_id p) _ st st' E' eq_refl).
    rewrite length_app. simpl. lia. }
  split; [by apply ratings_of_snoc|]. split; by apply R.
Qed.

(** ** Requests against a token nobody answers to *)

Lemma find_post_unknown token st :
  (forall p, p ∈ db_posts st -> ~ names token p) -> find_post token st = None.
Proof.
  intros H. destruct (find_post token st) as [q|] eqn:F; [|reflexivity].
  apply find_post_some in F as [Hq Hm]. exfalso. apply (H q Hq).
  unfold names. destruct Hm; auto.
Qed.

(** C6, as amended.  When the token matches neither a share token nor an
    id, react_post answers 404, rate_post answers 404 for a score from 1 to
    10 and 400 for any other score (the range check comes first), and in
    every case the stored state is unchanged. *)
Theorem unknown_token_no_write st token :
  (forall p, p ∈ db_posts st -> ~ names token p) ->
  (forall emoji now,
      react_post token emoji now st = (HTTPException 404 "Post not found", st)) /\
  (forall score rater_name now,
      rate_post token score rater_name now st
      = if ((1 <=? score) && (score <=? 10))%bool
        then (HTTPException 404 "Post not found", st)
        else (HTTPException 400 "Score must be 1-10", st)).
Proof.
  intros H. apply find_post_unknown in H. split.
  - intros. unfold react_post. by rewrite H.
  - intros. unfold rate_post. rewrite H. by destruct (_ && _)%bool.
Qed.

Lemma unknown_token_no_write_witness :
  (forall emoji now,
      react_post "nope" emoji now init_db = (HTTPException 404 "Post not found", init_db)) /\
  (forall score rater_name now,
      rate_post "nope" score rater_name now init_db
      = if ((1 <=? score) && (score <=? 10))%bool
        then (HTTPException 404 "Post not found", init_db)
        else (HTTPException 400 "Score must be 1-10", init_db)).
Proof.
  apply (unknown_token_no_write init_db "nope").
  intros p Hp. simpl in Hp. by apply elem_of_nil in Hp.
Defined.

(** C6 as first stated fails: on the fresh database the token "nope"
    resolves to nothing, yet rating it with score 0 is answered with 400,
    not 404. *)
Lemma unknown_token_rate_not_always_404 :
  ~ (forall st token,
       (forall p, p ∈ db_posts st -> ~ names token p) ->
       (forall score rater_name now,
           rate_post token score rater_name now st
           = (HTTPException 404 "Post not found", st)) /\
       (forall emoji now,
           react_post token emoji now st = (HTTPException 404 "Post not found", st))).
Proof.
  intros H.
  destruct (H init_db "nope"%string) as [Hrate _].
  { intros p Hp. simpl in Hp. by apply elem_of_nil in Hp. }
  specialize (Hrate 0 "Anonymous"%string (Datetime 2024 1 1 0 0 0 0)).
  discriminate Hrate.
Qed.

(** ** Deleting, and the PIN *)

Lemma pin_refused_false_iff (h : string) (pin : option string) :
  h <> ""%string ->
  pin_refused (Some h) pin = false <-> supplied_pin_matches pin h.
Proof.
  intros Hh. unfold pin_refused, supplied_pin_matches, truthy_str.
  apply eqb_false_iff in Hh. rewrite Hh.
  destruct pin as [s|].
  - destruct (String.eqb s "") eqn:Es.
    + apply eqb_true_iff in Es. split; [discriminate|].
      intros (s' & [= <-] & Hne & _). contradiction.
    + apply eqb_false_iff in Es.
      destruct (String.eqb (hash_pin s) h) eqn:Eh.
      * apply eqb_true_iff in Eh. split; [|reflexivity]. intros _. by exists s.
      * apply eqb_false_iff in Eh. split; [discriminate|].
        intros (s' & [= <-] & _ & E). contradiction.
  - split; [discriminate|]. intros (s' & [=] & _).
Qed.

Lemma delete_post_cases token pin st p :
  find_post token st = Some p ->
  delete_post token pin st
  = if pin_refused (post_pin_hash p) pin
    then (HTTPException 403 "Invalid PIN", st)
    else (Ok "Post deleted ✨"%string,
          delete_post_row (post_id p)
            (set_uploads st (delete (post_image_url p) (uploads st)))).
Proof. intros F. unfold delete_post. by rewrite F. Qed.

Lemma stored_hash_nonempty st p h :
  consistent st -> p ∈ db_posts st -> post_pin_hash p = Some h -> h <> ""%string.
Proof.
  intros (_ & Hok & _) Hp Hh. rewrite Forall_forall in Hok.
  destruct (Hok p Hp) as (_ & _ & Hpin & _).
  destruct (Hpin h Hh) as (s & _ & ->). apply hash_pin_nonempty.
Qed.

(** C1.  Take a post of a reachable state and a token naming it.  If its
    pin_hash is not NULL, delete_post succeeds exactly when a PIN is supplied
    whose SHA-256 hex digest equals the stored hash (the empty string counts
    as no PIN, see C10); with any other PIN, or none, it answers 403 and the
    stored state (the post, its image file, its ratings, its reactions) is
    unchanged.  If its pin_hash is NULL, delete_post succeeds with any PIN
    and with none. *)
Theorem delete_post_pin_check st p token pin :
  reachable st -> p ∈ db_posts st -> names token p ->
  match post_pin_hash p with
  | Some h =>
      (fst (delete_post token pin st) = Ok "Post deleted ✨"%string
       <-> supplied_pin_matches pin h) /\
      (~ supplied_pin_matches pin h ->
       delete_post token pin st = (HTTPException 403 "Invalid PIN", st))
  | None => fst (delete_post token pin st) = Ok "Post deleted ✨"%string
  end.
Proof.
  intros Hr Hp Hn. apply reachable_consistent in Hr.
  rewrite (delete_post_cases token pin st p (find_post_names _ _ _ Hr Hp Hn)).
  destruct (post_pin_hash p) as [h|] eqn:Hh; [|reflexivity].
  pose proof (pin_refused_false_iff h pin (stored_hash_nonempty _ _ _ Hr Hp Hh)) as Hiff.
  destruct (pin_refused (Some h) pin) eqn:E; simpl.
  - split; [|reflexivity]. split; [discriminate|].
    intros Hm. apply Hiff in Hm. discriminate Hm.
  - split; [|intros Hm; exfalso; apply Hm; by apply Hiff].
    split; [intros _; by apply Hiff|reflexivity].
Qed.

(** ** Reading a post *)

(** C5.  In a reachable state, get_post under a post's share token and
    get_post under its id give the same answer, the serialized post with
    its stats, for the same base URL and the same stored state. *)
Theorem get_post_by_token_or_id st p request_base :
  reachable st -> p ∈ db_posts st ->
  get_post (post_share_token p) request_base st = get_post (post_id p) request_base st /\
  get_post (post_id p) request_base st = (Ok (serialize_post p request_base st), st).
Proof.
  intros Hr Hp. apply reachable_consistent in Hr. unfold get_post.
  rewrite (find_post_names st p (post_share_token p) Hr Hp (or_introl eq_refl)).
  rewrite (find_post_names st p (post_id p) Hr Hp (or_intror eq_refl)).
  split; reflexivity.
Qed.

(** ** The empty-string PIN *)

Lemma create_post_row u c g pin img r1 r2 now st cr st' :
  create_post u c g pin img r1 r2 now st = (Ok cr, st') ->
  exists row,
    db_posts st' = db_posts st ++ [row] /\
    post_id row = created_id cr /\ post_share_token row = created_share_token cr /\
    post_pin_hash row
    = match pin with
      | Some p => if truthy_str pin then Some (hash_pin p) else None
      | None => None
      end.
Proof.
  unfold create_post.
  destruct (negb _); [discriminate|].
  destruct (has_char "000" _); [discriminate|].
  destruct (has_char "/" _); [discriminate|].
  destruct (insert_post _ _) as [st2|] eqn:I; [|discriminate].
  intros [= <- <-]. apply insert_post_rows in I as (E & _).
  eexists. split; [exact E|]. simpl. auto.
Qed.

(** C10.  (1) create_post treats the empty-string PIN exactly as no PIN: same
    answer, same stored state.  (2) When it succeeds from a reachable state
    the new row has a NULL pin_hash, and delete_post under either name of the
    new post succeeds with any PIN and with none.  (3) For a post of a
    reachable state with a stored pin_hash, delete_post with the empty-string
    PIN answers 403 and changes nothing, just as with no PIN. *)
Theorem empty_pin_is_no_pin :
  (forall u c g img r1 r2 now st,
      create_post u c g (Some ""%string) img r1 r2 now st
      = create_post u c g None img r1 r2 now st) /\
  (forall u c g img r1 r2 now st cr st',
      reachable st -> valid_datetime now ->
      create_post u c g (Some ""%string) img r1 r2 now st = (Ok cr, st') ->
      exists row,
        row ∈ db_posts st' /\ post_id row = created_id cr /\
        post_share_token row = created_share_token cr /\
        post_pin_hash row = None /\
        forall token pin, names token row ->
          fst (delete_post token pin st') = Ok "Post deleted ✨"%string) /\
  (forall st p h token,
      reachable st -> p ∈ db_posts st -> post_pin_hash p = Some h -> names token p ->
      delete_post token (Some ""%string) st = (HTTPException 403 "Invalid PIN", st) /\
      delete_post token None st = (HTTPException 403 "Invalid PIN", st)).
Proof.
  split; [|split].
  - reflexivity.
  - intros u c g img r1 r2 now st cr st' Hr Hnow Hc.
    assert (Hc' : consistent st').
    { replace st' with (snd (create_post u c g (Some ""%string) img r1 r2 now st))
        by (by rewrite Hc).
      apply create_post_consistent; [done|by apply reachable_consistent]. }
    destruct (create_post_row _ _ _ _ _ _ _ _ _ _ _ Hc) as (row & E & Hid & Htok & Hpin).
    simpl in Hpin. exists row.
    assert (Hrow : row ∈ db_posts st').
    { rewrite E. apply elem_of_app. right. by apply list_elem_of_singleton. }
    repeat (split; [done|]).
    intros token pin Hn.
    rewrite (delete_post_cases token pin st' row (find_post_names _ _ _ Hc' Hrow Hn)).
    by rewrite Hpin.
  - intros st p h token Hr Hp Hh Hn. apply reachable_consistent in Hr.
    rewrite !(delete_post_cases token _ st p (find_post_names _ _ _ Hr Hp Hn)).
    rewrite Hh.
    pose proof (stored_hash_nonempty _ _ _ Hr Hp Hh) as Hne.
    apply eqb_false_iff in Hne. unfold pin_refused. simpl. rewrite Hne. by simpl.
Qed.

(** ** After a deletion *)

Lemma delete_post_tables token pin st :
  db_ratings (snd (delete_post token pin st)) = db_ratings st /\
  db_reactions (snd (delete_post token pin st)) = db_reactions st.
Proof.
  unfold delete_post. destruct (find_post token st); [|done].
  by destruct (pin_refused _ _).
Qed.

(** The part of C7 that the code keeps: after a successful deletion from a
    reachable state the image file is gone and the post answers to neither
    its share token nor its id. *)
Lemma delete_post_gone st p token pin msg st' :
  reachable st -> p ∈ db_posts st -> names token p ->
  delete_post token pin st = (Ok msg, st') ->
  uploads st' !! post_image_url p = None /\
  (forall request_base,
      get_post (post_share_token p) request_base st'
      = (HTTPException 404 "Post not found", st')) /\
  (forall request_base,
      get_post (post_id p) request_base st'
      = (HTTPException 404 "Post not found", st')).
Proof.
  intros Hr Hp Hn. apply reachable_consistent in Hr.
  rewrite (delete_post_cases token pin st p (find_post_names _ _ _ Hr Hp Hn)).
  destruct (pin_refused _ _); [discriminate|]. intros [= <- <-].
  split; [apply lookup_delete_eq|].
  assert (Hgone : forall t, names t p ->
            find_post t (delete_post_row (post_id p)
              (set_uploads st (delete (post_image_url p) (uploads st)))) = None).
  { intros t Ht. apply find_post_unknown. simpl. intros q Hq Hnq.
    apply list_elem_of_In, filter_In in Hq as [Hq Hne].
    apply list_elem_of_In in Hq. string_cases.
    assert (F1 := find_post_names st p t Hr Hp Ht).
    assert (F2 := find_post_names st q t Hr Hq Hnq).
    rewrite F1 in F2. injection F2 as ->. by apply Hne. }
  split; intros base; unfold get_post.
  - by rewrite (Hgone _ (or_introl eq_refl)).
  - by rewrite (Hgone _ (or_intror eq_refl)).
Qed.

(** ** The order of TEXT values, and of printed datetimes *)

Lemma ascii_compare_spec (x y : ascii) :
  CompareSpec (x = y) (N_of_ascii x < N_of_ascii y)%N (N_of_ascii y < N_of_ascii x)%N
              (Ascii.compare x y).
Proof.
  unfold Ascii.compare.
  destruct (N.compare_spec (N_of_ascii x) (N_of_ascii y)) as [E|L|G]; constructor; auto.
  rewrite <- (ascii_N_embedding x), <- (ascii_N_embedding y). by rewrite E.
Qed.

Lemma string_leb_trans (a b c : string) :
  String.leb a b = true -> String.leb b c = true -> String.leb a c = true.
Proof.
  unfold String.leb. revert b c.
  induction a as [|x a IH]; intros [|y b] [|z c]; simpl; try done.
  specialize (IH b c).
  destruct (ascii_compare_spec x y), (ascii_compare_spec y z), (ascii_compare_spec x z);
    subst; try done; try lia.
Qed.

#[local] Instance created_at_desc_total : Total created_at_desc.
Proof. intros p q. unfold created_at_desc. destruct (String.leb_total (post_created_at q) (post_created_at p)); auto. Qed.

#[local] Instance created_at_desc_trans : Transitive created_at_desc.
Proof. intros p q r H1 H2. unfold created_at_desc in *. by apply (string_leb_trans _ (post_created_at q)). Qed.

Lemma lex_eq_r (c : comparison) : lex c Eq = c.
Proof. by destruct c. Qed.

Lemma digit_compare (x y : Z) :
  0 <= x < 10 -> 0 <= y < 10 -> Ascii.compare (digit x) (digit y) = (x ?= y).
Proof.
  intros Hx Hy. unfold Ascii.compare, digit.
  rewrite !N_ascii_embedding by lia.
  rewrite Z2N.inj_compare by lia.
  apply Z.add_compare_mono_l.
Qed.

Lemma compare_cons (x y : ascii) (r1 r2 : string) :
  String.compare (String x r1) (String y r2)
  = lex (Ascii.compare x y) (String.compare r1 r2).
Proof. simpl. by destruct (Ascii.compare x y). Qed.

Lemma lex_div_mod (x y : Z) (c : comparison) :
  lex (x / 10 ?= y / 10) (lex (x mod 10 ?= y mod 10) c) = lex (x ?= y) c.
Proof.
  pose proof (Z.div_mod x 10 ltac:(lia)). pose proof (Z.div_mod y 10 ltac:(lia)).
  pose proof (Z.mod_pos_bound x 10 ltac:(lia)). pose proof (Z.mod_pos_bound y 10 ltac:(lia)).
  destruct (Z.compare_spec (x / 10) (y / 10)), (Z.compare_spec (x mod 10) (y mod 10)),
    (Z.compare_spec x y); simpl; auto; lia.
Qed.

(** Zero-padded decimals of one width compare as the numbers do. *)
Lemma zfill_compare (w : nat) (x y : Z) (r1 r2 : string) :
  0 <= x < 10 ^ Z.of_nat w -> 0 <= y < 10 ^ Z.of_nat w ->
  String.compare (zfill w x r1) (zfill w y r2) = lex (x ?= y) (String.compare r1 r2).
Proof.
  revert x y r1 r2. induction w as [|w IH]; intros x y r1 r2 Hx Hy.
  - simpl in *. assert (x = 0) as -> by lia. assert (y = 0) as -> by lia. reflexivity.
  - rewrite Nat2Z.inj_succ, Z.pow_succ_r in Hx, Hy by lia.
    cbn [zfill]. rewrite IH.
    + rewrite compare_cons, digit_compare by (apply Z.mod_pos_bound; lia).
      apply lex_div_mod.
    + split; [apply Z.div_pos; lia|apply Z.div_lt_upper_bound; lia].
    + split; [apply Z.div_pos; lia|apply Z.div_lt_upper_bound; lia].
Qed.

Lemma zfill2_compare (x y : Z) (r1 r2 : string) :
  0 <= x < 100 -> 0 <= y < 100 ->
  String.compare (zfill 2 x r1) (zfill 2 y r2) = lex (x ?= y) (String.compare r1 r2).
Proof. apply (zfill_compare 2). Qed.

Lemma compare_same_head (c : ascii) (r1 r2 : string) :
  String.compare (String c r1) (String c r2) = String.compare r1 r2.
Proof.
  rewrite compare_cons. destruct (ascii_compare_spec c c); simpl; auto; lia.
Qed.

(** isoformat keeps the order of time: the printed forms compare, as TEXT,
    the way the datetimes compare. *)
Lemma isoformat_compare (a b : datetime) :
  valid_datetime a -> valid_datetime b ->
  String.compare (isoformat a) (isoformat b) = datetime_compare a b.
Proof.
  intros (Ya & Ma & Da & Ha & Ia & Sa & Ua) (Yb & Mb & Db & Hb & Ib & Sb & Ub).
  unfold isoformat, datetime_compare.
  rewrite (zfill_compare 4), compare_same_head by (change (10 ^ Z.of_nat 4) with 10000; lia).
  f_equal.
  do 4 (rewrite zfill2_compare, compare_same_head by lia; f_equal).
  rewrite zfill2_compare by lia. f_equal.
  destruct (Z.eqb_spec (microsecond a) 0) as [Ea|Na],
           (Z.eqb_spec (microsecond b) 0) as [Eb|Nb].
  - rewrite Ea, Eb. reflexivity.
  - rewrite Ea. cbn [String.compare]. symmetry. apply Z.compare_lt_iff. lia.
  - rewrite Eb. cbn [String.compare]. symmetry. apply Z.compare_gt_iff. lia.
  - rewrite compare_same_head.
    rewrite (zfill_compare 6) by (change (10 ^ Z.of_nat 6) with 1000000; lia).
    apply lex_eq_r.
Qed.

(** ** Listing *)

Lemma StronglySorted_lookup {A : Type} (R : relation A) (l : list A) i j x y :
  StronglySorted R l -> (i < j)%nat -> l !! i = Some x -> l !! j = Some y -> R x y.
Proof.
  intros Hs. revert i j. induction Hs as [|a l Hs IH Hall]; intros i j Hij Hi Hj.
  - by rewrite lookup_nil in Hi.
  - destruct j as [|j]; [lia|]. simpl in Hj. destruct i as [|i]; simpl in Hi.
    + injection Hi as <-. rewrite Forall_forall in Hall. apply Hall.
      by apply list_elem_of_lookup_2 in Hj.
    + apply (IH i j); auto. lia.
Qed.

(** C8.  In a reachable state get_posts answers with the serialized form
    (the row's fields and its current stats) of a rearrangement of the posts
    table in which every post occurs exactly once, ordered by created_at from
    the greatest down; since created_at is printed by isoformat this is the
    order of the creation times, newest first. *)
Theorem get_posts_newest_first st request_base :
  reachable st ->
  exists rows,
    get_posts request_base st
      = (Ok (map (fun r => serialize_post r request_base st) rows), st) /\
    rows ≡ₚ db_posts st /\
    NoDup (map post_id rows) /\
    StronglySorted created_at_desc rows /\
    Forall (fun p => exists d, valid_datetime d /\ post_created_at p = isoformat d) rows /\
    (forall i j p q dp dq,
        (i < j)%nat -> rows !! i = Some p -> rows !! j = Some q ->
        valid_datetime dp -> post_created_at p = isoformat dp ->
        valid_datetime dq -> post_created_at q = isoformat dq ->
        datetime_compare dq dp <> Gt) /\
    (forall i r, rows !! i = Some r ->
        po_stats (serialize_post r request_base st) = post_stats (post_id r) st).
Proof.
  intros Hr. apply reachable_consistent in Hr as ((Hid & _) & Hok & _).
  exists (merge_sort created_at_desc (db_posts st)).
  pose proof (merge_sort_Permutation created_at_desc (db_posts st)) as Hperm.
  pose proof (StronglySorted_merge_sort created_at_desc (db_posts st)) as Hsorted.
  split; [reflexivity|]. split; [exact Hperm|]. split; [|split; [exact Hsorted|split; [|split]]].
  - by rewrite Hperm.
  - rewrite Hperm. eapply Forall_impl; [exact Hok|]. by intros p (_ & _ & _ & H).
  - intros i j p q dp dq Hij Hi Hj Vp Ep Vq Eq.
    pose proof (StronglySorted_lookup _ _ i j p q Hsorted Hij Hi Hj) as Hdesc.
    unfold created_at_desc, String.leb in Hdesc.
    rewrite Eq, Ep, (isoformat_compare dq dp Vq Vp) in Hdesc.
    intros G. rewrite G in Hdesc. discriminate Hdesc.
  - reflexivity.
Qed.

(** ** The average, in double precision *)

Lemma rne_div_spec (a b : Z) :
  0 < b -> 2 * Z.abs (Binary64.rne_div a b * b - a) <= b.
Proof.
  intros Hb. unfold Binary64.rne_div.
  pose proof (Z.div_mod a b ltac:(lia)) as E.
  pose proof (Z.mod_pos_bound a b Hb) as Hr.
  set (q := a / b) in *. set (r := a mod b) in *.
  assert (Eq : q * b = b * q) by ring.
  destruct (Z.ltb_spec (2 * r) b); [lia|].
  destruct (Z.ltb_spec b (2 * r)); [lia|].
  destruct (Z.even q); lia.
Qed.

Lemma ilog2_quot_range (a n : Z) :
  0 < n -> n <= a <= 10 * n -> 0 <= Binary64.ilog2_quot a n <= 3.
Proof.
  intros Hn Ha. unfold Binary64.ilog2_quot, Binary64.le_scaled.
  assert (L1 : Z.log2 n <= Z.log2 a) by (apply Z.log2_le_mono; lia).
  assert (L2 : Z.log2 a <= 4 + Z.log2 n).
  { rewrite <- (Z.log2_mul_pow2 n 4) by lia. apply Z.log2_le_mono. lia. }
  set (g := Z.log2 a - Z.log2 n).
  assert (Hg : g = 0 \/ g = 1 \/ g = 2 \/ g = 3 \/ g = 4) by lia.
  destruct Hg as [-> | [-> | [-> | [-> | ->]]]]; simpl;
    match goal with |- context [?x <=? ?y] => destruct (Z.leb_spec x y) end; lia.
Qed.

Section Average.

Variables s n : Z.
Hypothesis n_pos : 0 < n.
Hypothesis mean_range : n <= s <= 10 * n.

(** For a mean between 1 and 10 the quotient has a negative exponent and
    a mantissa within half a unit of s * 2^-e / n. *)
Lemma div_int_shape :
  exists c,
    (c = 2 ^ 49 \/ c = 2 ^ 50 \/ c = 2 ^ 51 \/ c = 2 ^ 52) /\
    Binary64.exponent (Binary64.div_int s n) < 0 /\
    2 ^ (- Binary64.exponent (Binary64.div_int s n)) = c /\
    2 * Z.abs (Binary64.mantissa (Binary64.div_int s n) * n - s * c) <= n.
Proof.
  unfold Binary64.div_int.
  destruct (Z.eqb_spec s 0) as [E|_]; [lia|].
  rewrite (Z.abs_eq s) by lia.
  pose proof (ilog2_quot_range s n n_pos mean_range) as Hk.
  set (k := Binary64.ilog2_quot s n) in *.
  assert (Hk' : k = 0 \/ k = 1 \/ k = 2 \/ k = 3) by lia.
  cbn [Binary64.exponent Binary64.mantissa].
  destruct Hk' as [-> | [-> | [-> | ->]]]; cbn [Z.sub Z.add Z.opp Z.pos_sub Z.leb Z.compare
    Pos.pred_double Z.succ_double Z.pred_double Z.double Pos.compare Pos.compare_cont];
    eexists; (split; [|split; [lia|split; [reflexivity|]]]);
    [ right; right; right; reflexivity | apply rne_div_spec; lia
    | right; right; left; reflexivity | apply rne_div_spec; lia
    | right; left; reflexivity | apply rne_div_spec; lia
    | left; reflexivity | apply rne_div_spec; lia ].
Qed.

Lemma div_int_truthy : Binary64.truthy (Binary64.div_int s n) = true.
Proof.
  destruct div_int_shape as (c & Hc & _ & _ & Hm).
  unfold Binary64.truthy. apply negb_true_iff, Z.eqb_neq. intros E.
  rewrite E in Hm.
  assert (0 < c) by (destruct Hc as [-> | [-> | [-> | ->]]]; lia).
  assert (s <= s * c) by nia. lia.
Qed.


End Average.

Lemma sum_scores_range (rs : list rating) :
  Forall rating_ok rs ->
  Z.of_nat (length rs) <= sum_Z (map rating_score rs) <= 10 * Z.of_nat (length rs).
Proof.
  induction 1 as [|r rs Hr _ IH]; simpl; [lia|].
  unfold rating_ok in Hr. lia.
Qed.

(** ** Derived stats *)

Lemma fold_insert_lookup (f : string -> Z) (ks : list string) (m0 : gmap string Z) (e : string) :
  fold_left (fun d r => <[fst r := snd r]> d) (map (fun k => (k, f k)) ks) m0 !! e
  = if decide (e ∈ ks) then Some (f e) else m0 !! e.
Proof.
  revert m0. induction ks as [|k ks IH]; intros m0; simpl.
  - destruct (decide (e ∈ [])) as [H|_]; [by apply elem_of_nil in H|done].
  - rewrite IH. destruct (decide (e ∈ ks)) as [Hin|Hnin].
    + rewrite decide_True; [done|by apply elem_of_cons; right].
    + destruct (decide (e = k)) as [->|Hne].
      * rewrite decide_True by (apply elem_of_cons; by left).
        apply lookup_insert_eq.
      * rewrite decide_False by (rewrite elem_of_cons; intros [?|?]; done).
        by apply lookup_insert_ne.
Qed.

Lemma occurrences_zero (e : string) (l : list string) : occurrences e l = 0 <-> e ∉ l.
Proof.
  unfold occurrences. induction l as [|x l IH]; simpl.
  - split; [intros _; apply not_elem_of_nil|done].
  - rewrite not_elem_of_cons. destruct (String.eqb_spec e x) as [->|Hne]; simpl.
    + split; [lia|]. by intros [? _].
    + rewrite IH. tauto.
Qed.


Lemma reactions_lookup pid st e :
  reactions (post_stats pid st) !! e
  = let k := occurrences e (map reaction_emoji (reactions_of pid st)) in
    if decide (k = 0) then None else Some k.
Proof.
  unfold post_stats, group_count. cbn [reactions].
  set (emojis := map reaction_emoji (reactions_of pid st)).
  rewrite (fold_insert_lookup (fun e => occurrences e emojis)). cbn zeta.
  destruct (decide (occurrences e emojis = 0)) as [Hz|Hnz].
  - apply occurrences_zero in Hz. rewrite decide_False; [done|].
    by rewrite elem_of_remove_dups.
  - rewrite decide_True; [done|]. rewrite elem_of_remove_dups.
    destruct (decide (e ∈ emojis)) as [|Hn]; [done|].
    by apply occurrences_zero in Hn.
Qed.

Lemma sql_avg_scores (rs : list rating) :
  sql_avg (map rating_score rs)
  = match rs with
    | [] => None
    | _ => Some (Binary64.div_int (sum_Z (map rating_score rs)) (Z.of_nat (length rs)))
    end.
Proof. destruct rs; [done|]. unfold sql_avg. by rewrite length_map. Qed.

Lemma avg_rating_cases pid st :
  Forall rating_ok (db_ratings st) ->
  let rs := ratings_of pid st in
  let n := Z.of_nat (length rs) in
  (rs = [] /\ avg_rating (post_stats pid st) = None) \/
  (0 < n /\ n <= sum_Z (map rating_score rs) <= 10 * n /\
   avg_rating (post_stats pid st)
   = Some (Binary64.round1 (Binary64.div_int (sum_Z (map rating_score rs)) n))).
Proof.
  intros Hok. cbn zeta. unfold post_stats. cbn [avg_rating].
  rewrite sql_avg_scores.
  assert (Hrs : Forall rating_ok (ratings_of pid st)) by by apply Forall_filter.
  apply sum_scores_range in Hrs.
  destruct (ratings_of pid st) as [|r rs] eqn:E; [by left|right].
  assert (Hn : 0 < Z.of_nat (length (r :: rs))) by (simpl; lia).
  split; [exact Hn|]. split; [exact Hrs|].
  by rewrite (div_int_truthy _ _ Hn Hrs).
Qed.


(** ** The concrete run *)

Lemma reachable_run (rs : list request) (st : store) :
  reachable st -> Forall clock_ok rs -> reachable (Demo.run rs st).
Proof.
  intros Hr Hrs. revert st Hr. unfold Demo.run.
  induction Hrs as [|r rs Hc _ IH]; intros st Hr; simpl; [exact Hr|].
  apply IH. by apply reachable_step.
Qed.

Lemma demo_reachable : reachable Demo.st.
Proof.
  apply reachable_run; [apply reachable_init|].
  unfold Demo.requests.
  repeat (apply Forall_cons; split; [unfold clock_ok, valid_datetime; simpl; lia|]).
  constructor.
Qed.

Lemma demo_posts : db_posts Demo.st = [Demo.post_a; Demo.post_b].
Proof. vm_compute. reflexivity. Qed.

Lemma demo_post_a : Demo.post_a ∈ db_posts Demo.st.
Proof. rewrite demo_posts. apply elem_of_cons. by left. Qed.

Lemma demo_post_b : Demo.post_b ∈ db_posts Demo.st.
Proof. rewrite demo_posts. apply elem_of_cons. right. apply elem_of_cons. by left. Qed.

Example sha256_abc :
  SHA256.hexdigest "abc"
  = "ba7816bf8f01cfea414140de5dae2223b00361a396177a9cb410ff61f20015ad"%string.
Proof. vm_compute. reflexivity. Qed.

Example sha256_empty :
  SHA256.hexdigest ""
  = "e3b0c44298fc1c149afbf4c8996fb92427ae41e4649b934ca495991b7852b855"%string.
Proof. vm_compute. reflexivity. Qed.

Example sha256_two_blocks :
  SHA256.hexdigest "aaaaaaaaaaaaaaaaaaaaaaaaaaaaaaaaaaaaaaaaaaaaaaaaaaaaaaaa"
  = "b35439a4ac6f0948b6d6f9e3c6af0f5f590ce20f1bde7090ef7970686ec6738a"%string.
Proof. vm_compute. reflexivity. Qed.

Example uuid4_str :
  UUID.str (UUID.uuid4 0x000102030405060708090a0b0c0d0e0f)
  = "00010203-0405-4607-8809-0a0b0c0d0e0f"%string.
Proof. vm_compute. reflexivity. Qed.

Example isoformat_whole_second :
  isoformat Demo.noon = "2024-05-17T12:00:00"%string /\
  isoformat Demo.later = "2024-05-17T12:00:00.250000"%string.
Proof. split; vm_compute; reflexivity. Qed.

(** [div_int] agrees with IEEE 754 division as the processor performs it,
    on every mean of up to 40 scores and on a few quotients of other sizes. *)
Example div_int_is_hardware_division :
  forallb (fun p => PrimFloat.eqb (Binary64.to_float (Binary64.div_int (fst p) (snd p)))
                                  (Binary64.hardware_div (fst p) (snd p)))
          (Binary64.small_means ++
           [(1, 3); (1, 10); (123456789, 1000); (2 ^ 52 + 1, 3); (7, 2 ^ 50 + 3)])
  = true.
Proof. vm_compute. reflexivity. Qed.

(** round(167/20, 1) is 8.3 in double precision (the quotient lies just
    below 8.35), round(33/4, 1) is 8.2 (a tie, to even), round(24/3, 1) is 8.0. *)
Example round1_samples :
  map (fun p => Binary64.round1 (Binary64.div_int (fst p) (snd p)))
      [(167, 20); (33, 4); (24, 3); (7, 3); (1, 20); (3, 20); (1, 4)]
  = [83; 82; 80; 23; 1; 1; 2].
Proof. vm_compute. reflexivity. Qed.

(** C7.  Deleting Ada's post in the concrete run succeeds and the post no
    longer resolves, yet its three rating rows and its three reaction rows
    are still in their tables: the cascade the schema declares does not
    happen. *)
Theorem delete_post_leaves_ratings_and_reactions :
  fst (delete_post Demo.token_a None Demo.st) = Ok "Post deleted ✨"%string /\
  let st' := snd (delete_post Demo.token_a None Demo.st) in
  find_post Demo.token_a st' = None /\ find_post Demo.id_a st' = None /\
  map rating_score (ratings_of Demo.id_a st') = [8; 6; 10] /\
  map reaction_emoji (reactions_of Demo.id_a st') = ["🔥"; "😍"; "🔥"]%string.
Proof. vm_compute. repeat split. Qed.

(** ** The theorems at the concrete run *)

Lemma delete_post_pin_check_witness :
  (fst (delete_post Demo.token_b (Some "1234"%string) Demo.st) = Ok "Post deleted ✨"%string
   <-> supplied_pin_matches (Some "1234"%string) (hash_pin "1234")) /\
  (~ supplied_pin_matches (Some "1234"%string) (hash_pin "1234") ->
   delete_post Demo.token_b (Some "1234"%string) Demo.st
   = (HTTPException 403 "Invalid PIN", Demo.st)).
Proof.
  apply (delete_post_pin_check Demo.st Demo.post_b Demo.token_b (Some "1234"%string)).
  - exact demo_reachable.
  - exact demo_post_b.
  - left. reflexivity.
Defined.

Lemma rate_post_out_of_range_witness :
  rate_post Demo.token_a 11 "Anonymous" Demo.noon Demo.st
  = (HTTPException 400 "Score must be 1-10", Demo.st).
Proof. apply rate_post_out_of_range. right. lia. Defined.

Lemma rate_post_valid_witness :
  exists st',
    let row := Rating (db_ratings_seq Demo.st + 1) (post_id Demo.post_a) "cy" 7
                      (isoformat Demo.later) in
    rate_post Demo.token_a 7 "cy" Demo.later Demo.st
      = (Ok ("Rated! ✨"%string, post_stats (post_id Demo.post_a) st'), st') /\
    db_ratings st' = db_ratings Demo.st ++ [row] /\
    db_posts st' = db_posts Demo.st /\ db_reactions st' = db_reactions Demo.st /\
    uploads st' = uploads Demo.st /\
    ratings_of (post_id Demo.post_a) st' = ratings_of (post_id Demo.post_a) Demo.st ++ [row] /\
    total_ratings (post_stats (post_id Demo.post_a) st')
      = Z.of_nat (length (ratings_of (post_id Demo.post_a) Demo.st)) + 1 /\
    total_ratings (post_stats (post_id Demo.post_a) st')
      = total_ratings (post_stats (post_id Demo.post_a) Demo.st) + 1.
Proof.
  apply (rate_post_valid Demo.st Demo.token_a Demo.post_a 7 "cy" Demo.later).
  - vm_compute. reflexivity.
  - lia.
Defined.


Lemma get_post_by_token_or_id_witness :
  get_post (post_share_token Demo.post_a) "http://localhost:8000" Demo.st
  = get_post (post_id Demo.post_a) "http://localhost:8000" Demo.st /\
  get_post (post_id Demo.post_a) "http://localhost:8000" Demo.st
  = (Ok (serialize_post Demo.post_a "http://localhost:8000" Demo.st), Demo.st).
Proof.
  apply (get_post_by_token_or_id Demo.st Demo.post_a "http://localhost:8000").
  - exact demo_reachable.
  - exact demo_post_a.
Defined.

Lemma get_posts_newest_first_witness :
  exists rows,
    get_posts "http://localhost:8000" Demo.st
      = (Ok (map (fun r => serialize_post r "http://localhost:8000" Demo.st) rows), Demo.st) /\
    rows ≡ₚ db_posts Demo.st /\
    NoDup (map post_id rows) /\
    StronglySorted created_at_desc rows /\
    Forall (fun p => exists d, valid_datetime d /\ post_created_at p = isoformat d) rows /\
    (forall i j p q dp dq,
        (i < j)%nat -> rows !! i = Some p -> rows !! j = Some q ->
        valid_datetime dp -> post_created_at p = isoformat dp ->
        valid_datetime dq -> post_created_at q = isoformat dq ->
        datetime_compare dq dp <> Gt) /\
    (forall i r, rows !! i = Some r ->
        po_stats (serialize_post r "http://localhost:8000" Demo.st)
        = post_stats (post_id r) Demo.st).
Proof.
  apply (get_posts_newest_first Demo.st "http://localhost:8000"). exact demo_reachable.
Defined.

Lemma unique_keys_invariant_witness :
  unique_keys Demo.st /\
  unique_keys (handle (DeletePost Demo.token_a None) Demo.st).
Proof.
  destruct (unique_keys_invariant Demo.st) as [Hreach Hstep].
  pose proof (Hreach demo_reachable) as Hu.
  split; [exact Hu|]. apply Hstep. exact Hu.
Defined.

Lemma empty_pin_is_no_pin_witness :
  delete_post Demo.token_b (Some ""%string) Demo.st
    = (HTTPException 403 "Invalid PIN", Demo.st) /\
  delete_post Demo.token_b None Demo.st = (HTTPException 403 "Invalid PIN", Demo.st).
Proof.
  destruct empty_pin_is_no_pin as (_ & _ & Hdel).
  apply (Hdel Demo.st Demo.post_b (hash_pin "1234") Demo.token_b).
  - exact demo_reachable.
  - exact demo_post_b.
  - reflexivity.
  - left. reflexivity.
Defined.

(** * Further properties of the handlers *)

(** ** Creating a post *)

Lemma find_app_some {A : Type} (f : A -> bool) (l l' : list A) (x : A) :
  List.find f l = Some x -> List.find f (l ++ l') = Some x.
Proof.
  induction l as [|a l IH]; simpl; [discriminate|].
  destruct (f a); auto.
Qed.

Lemma append_same_length (a b s t : string) :
  String.length a = String.length b -> a +:+ s = b +:+ t -> a = b /\ s = t.
Proof.
  revert b. induction a as [|x a IH]; intros [|y b]; simpl; try discriminate.
  - auto.
  - intros [= L] [= -> E]. destruct (IH b L E) as [-> ->]. auto.
Qed.

Lemma create_post_cases u c g pin img r1 r2 now st :
  let pid := UUID.str (UUID.uuid4 r1) in
  let tok := String.substring 0 8 (UUID.str (UUID.uuid4 r2)) in
  let fname := stored_name pid (filename img) in
  let st1 := set_uploads st (<[fname := file img]> (uploads st)) in
  let row := Post pid u c g fname tok
               match pin with
               | Some p => if truthy_str pin then Some (hash_pin p) else None
               | None => None
               end (isoformat now) in
  create_post u c g pin img r1 r2 now st
  = if negb (String.prefix "image/" (content_type img)) then
      (HTTPException 400 "File must be an image", st)
    else if has_char "000" (extension (filename img)) then (Uncaught "ValueError", st)
    else if has_char "/" (extension (filename img)) then (Uncaught "OSError", st)
    else match insert_post row st1 with
         | None => (Uncaught "sqlite3.IntegrityError", st1)
         | Some st2 => (Ok (Created pid tok ("/rate/" +:+ tok)), st2)
         end.
Proof. reflexivity. Qed.

(** X1.  create_post answers with an HTTP error in one case only: the
    declared content type does not start with "image/".  The answer is then
    400, given before anything is generated or written, so the stored state,
    upload directory included, is unchanged. *)
Theorem create_post_not_an_image u c g pin img r1 r2 now st :
  (String.prefix "image/" (content_type img) = false ->
   create_post u c g pin img r1 r2 now st
   = (HTTPException 400 "File must be an image", st)) /\
  (forall code detail,
     fst (create_post u c g pin img r1 r2 now st) = HTTPException code detail ->
     String.prefix "image/" (content_type img) = false /\ code = 400 /\
     snd (create_post u c g pin img r1 r2 now st) = st).
Proof.
  rewrite create_post_cases. cbn zeta. split.
  - intros H. by rewrite H.
  - intros code detail.
    destruct (String.prefix "image/" (content_type img)); cbn [negb].
    + destruct (has_char "000" _); [discriminate|].
      destruct (has_char "/" _); [discriminate|].
      destruct (insert_post _ _); discriminate.
    + intros [= <- _]. auto.
Qed.

Lemma create_post_not_an_image_witness :
  create_post "ada" "" "fit" None (UploadFile "text/html" "x.png" []) 1 2 Demo.noon Demo.st
  = (HTTPException 400 "File must be an image", Demo.st).
Proof.
  apply (create_post_not_an_image "ada" "" "fit" None (UploadFile "text/html" "x.png" [])
           1 2 Demo.noon Demo.st).
  reflexivity.
Defined.

Lemma create_post_ok u c g pin img r1 r2 now st cr st' :
  create_post u c g pin img r1 r2 now st = (Ok cr, st') ->
  let pid := UUID.str (UUID.uuid4 r1) in
  let tok := String.substring 0 8 (UUID.str (UUID.uuid4 r2)) in
  let fname := stored_name pid (filename img) in
  let row := Post pid u c g fname tok
               match pin with
               | Some p => if truthy_str pin then Some (hash_pin p) else None
               | None => None
               end (isoformat now) in
  cr = Created pid tok ("/rate/" +:+ tok) /\
  db_posts st' = db_posts st ++ [row] /\
  db_ratings st' = db_ratings st /\ db_ratings_seq st' = db_ratings_seq st /\
  db_reactions st' = db_reactions st /\ db_reactions_seq st' = db_reactions_seq st /\
  uploads st' = <[fname := file img]> (uploads st) /\
  (forall p, p ∈ db_posts st -> post_id p <> pid /\ post_share_token p <> tok).
Proof.
  rewrite create_post_cases. cbn zeta.
  destruct (negb _); [discriminate|].
  destruct (has_char "000" _); [discriminate|].
  destruct (has_char "/" _); [discriminate|].
  unfold insert_post. destruct (existsb _ _) eqn:E; [discriminate|].
  intros [= <- <-]. simpl. repeat (split; [reflexivity|]).
  intros p Hp. pose proof (existsb_false_all _ _ E p Hp) as H. simpl in H.
  string_cases. auto.
Qed.

Lemma post_stats_same_tables pid st st' :
  db_ratings st' = db_ratings st -> db_reactions st' = db_reactions st ->
  post_stats pid st' = post_stats pid st.
Proof.
  intros E1 E2. unfold post_stats, ratings_of, reactions_of. by rewrite E1, E2.
Qed.

Lemma serialize_post_same_tables p base st st' :
  db_ratings st' = db_ratings st -> db_reactions st' = db_reactions st ->
  serialize_post p base st' = serialize_post p base st.
Proof.
  intros E1 E2. unfold serialize_post. by rewrite (post_stats_same_tables _ st st').
Qed.

(** X2.  When create_post succeeds from a reachable state, the id it returns
    is 36 characters long, the share token 8, the share path is "/rate/"
    followed by the token, and get_post under the id and under the token
    both give back the post as submitted: username, caption and category
    unchanged, the image URL built from the id and the upload's extension,
    created_at the printed clock reading, and the stats of that id. *)
Theorem create_post_then_get_post u c g pin img r1 r2 now st cr st' :
  reachable st -> valid_datetime now ->
  create_post u c g pin img r1 r2 now st = (Ok cr, st') ->
  String.length (created_id cr) = 36%nat /\
  String.length (created_share_token cr) = 8%nat /\
  created_share_url cr = "/rate/" +:+ created_share_token cr /\
  forall token request_base,
    token = created_id cr \/ token = created_share_token cr ->
    get_post token request_base st'
    = (Ok (PostObject (created_id cr) u c g
             (request_base +:+ "/uploads/" +:+ stored_name (created_id cr) (filename img))
             (created_share_token cr) (isoformat now)
             (post_stats (created_id cr) st)),
       st').
Proof.
  intros Hr Hnow Hc.
  assert (Hc' : consistent st').
  { replace st' with (snd (create_post u c g pin img r1 r2 now st)) by (by rewrite Hc).
    apply create_post_consistent; [done|by apply reachable_consistent]. }
  destruct (create_post_ok _ _ _ _ _ _ _ _ _ _ _ Hc)
    as (-> & Hposts & Hrat & _ & Hrea & _ & _ & _).
  cbn [created_id created_share_token created_share_url].
  split; [reflexivity|]. split; [reflexivity|]. split; [reflexivity|].
  intros token base Ht.
  set (row := Post _ _ _ _ _ _ _ _) in Hposts.
  assert (Hrow : row ∈ db_posts st').
  { rewrite Hposts. apply elem_of_app. right. by apply list_elem_of_singleton. }
  unfold get_post.
  rewrite (find_post_names st' row token Hc' Hrow).
  - unfold serialize_post. cbn [post_id post_username post_caption post_category
      post_image_url post_share_token post_created_at row].
    by rewrite (post_stats_same_tables _ st st' Hrat Hrea).
  - unfold names. cbn [post_id post_share_token row]. tauto.
Qed.

(** X3.  A successful create_post stores the uploaded bytes, unaltered, under
    the name made of the new id, a dot and the upload's extension; every
    other file of the upload directory, and the ratings and reactions
    tables, are as before. *)
Theorem create_post_stores_upload u c g pin img r1 r2 now st cr st' :
  create_post u c g pin img r1 r2 now st = (Ok cr, st') ->
  uploads st' !! stored_name (created_id cr) (filename img) = Some (file img) /\
  (forall name, name <> stored_name (created_id cr) (filename img) ->
                uploads st' !! name = uploads st !! name) /\
  db_ratings st' = db_ratings st /\ db_reactions st' = db_reactions st.
Proof.
  intros Hc.
  destruct (create_post_ok _ _ _ _ _ _ _ _ _ _ _ Hc)
    as (-> & _ & Hrat & _ & Hrea & _ & Hup & _).
  cbn [created_id]. rewrite Hup. split; [apply lookup_insert_eq|].
  split; [|done]. intros name Hne. by apply lookup_insert_ne.
Qed.


(** X5.  Whatever its outcome, create_post leaves every post that was
    retrievable before retrievable under the same token with the same
    representation. *)
Theorem create_post_keeps_existing_posts u c g pin img r1 r2 now st token q request_base :
  find_post token st = Some q ->
  get_post token request_base (snd (create_post u c g pin img r1 r2 now st))
  = (Ok (serialize_post q request_base st), snd (create_post u c g pin img r1 r2 now st)).
Proof.
  intros F. rewrite create_post_cases. cbn zeta.
  assert (G : forall st', db_posts st' = db_posts st \/ (exists row, db_posts st' = db_posts st ++ [row]) ->
              db_ratings st' = db_ratings st -> db_reactions st' = db_reactions st ->
              get_post token request_base st' = (Ok (serialize_post q request_base st), st')).
  { intros st' Hp E1 E2. unfold get_post.
    assert (F' : find_post token st' = Some q).
    { unfold find_post in *. destruct Hp as [-> | [row ->]]; [done|by apply find_app_some]. }
    rewrite F'. by rewrite (serialize_post_same_tables q _ st st'). }
  destruct (negb _); [apply G; auto|].
  destruct (has_char "000" _); [apply G; auto|].
  destruct (has_char "/" _); [apply G; auto|].
  unfold insert_post. destruct (existsb _ _); simpl; apply G; simpl; eauto.
Qed.

(** ** Stored posts and their image files *)

Lemma image_on_disk_create u c g pin img r1 r2 now st :
  Forall (image_on_disk st) (db_posts st) ->
  Forall (image_on_disk (snd (create_post u c g pin img r1 r2 now st)))
         (db_posts (snd (create_post u c g pin img r1 r2 now st))).
Proof.
  intros H. rewrite create_post_cases. cbn zeta.
  assert (Hins : forall name content,
    Forall (image_on_disk (set_uploads st (<[name := content]> (uploads st)))) (db_posts st)).
  { intros name content. eapply Forall_impl; [exact H|].
    intros p [Hn Hs]. split; [exact Hn|]. simpl.
    apply lookup_insert_is_Some. destruct (decide (name = post_image_url p)); auto. }
  destruct (negb _); [exact H|].
  destruct (has_char "000" _); [exact H|].
  destruct (has_char "/" _); [exact H|].
  unfold insert_post. destruct (existsb _ _); simpl; [apply Hins|].
  apply Forall_app. split; [apply Hins|].
  apply Forall_cons. split; [|constructor].
  split; simpl.
  - by exists (extension (filename img)).
  - rewrite lookup_insert_eq. by eexists.
Qed.

Lemma image_on_disk_delete token pin st :
  consistent st ->
  Forall (image_on_disk st) (db_posts st) ->
  Forall (image_on_disk (snd (delete_post token pin st)))
         (db_posts (snd (delete_post token pin st))).
Proof.
  intros Hc H. unfold delete_post.
  destruct (find_post token st) as [p|] eqn:F; [|exact H].
  destruct (pin_refused _ _); [exact H|]. simpl.
  apply find_post_some in F as [Hp _].
  rewrite Forall_forall in H |- *. intros q Hq.
  apply list_elem_of_In, filter_In in Hq as [Hq Hne].
  apply list_elem_of_In in Hq. string_cases.
  destruct (H q Hq) as [[eq Hnq] Hsq], (H p Hp) as [[ep Hnp] _].
  split; [by exists eq|]. simpl.
  rewrite lookup_delete_ne; [exact Hsq|].
  intros E. apply Hne. rewrite Hnp, Hnq in E.
  destruct Hc as (_ & Hok & _). rewrite Forall_forall in Hok.
  destruct (Hok p Hp) as (Lp & _), (Hok q Hq) as (Lq & _).
  destruct (append_same_length (post_id p) (post_id q) ("." +:+ ep) ("." +:+ eq))
    as [E' _]; [congruence|exact E|].
  by symmetry.
Qed.

Lemma reachable_image_on_disk st :
  reachable st -> Forall (image_on_disk st) (db_posts st).
Proof.
  induction 1 as [|st r Hr IH Hclock]; [constructor|].
  destruct r; simpl.
  - by apply image_on_disk_create.
  - exact IH.
  - unfold get_post. destruct (find_post _ _); exact IH.
  - unfold rate_post, insert_rating.
    destruct (negb _); [exact IH|].
    destruct (find_post _ _); [|exact IH].
    destruct (_ && _)%bool; exact IH.
  - unfold react_post. destruct (find_post _ _); exact IH.
  - apply image_on_disk_delete; [by apply reachable_consistent|exact IH].
Qed.

(** X6.  In every reachable state each stored post has its image in the
    upload directory, under a name that starts with the post's id and a
    dot; so the image_url of every listed post points at an existing file. *)
Theorem every_post_has_its_image st p :
  reachable st -> p ∈ db_posts st ->
  (exists ext, post_image_url p = post_id p +:+ "." +:+ ext) /\
  is_Some (uploads st !! post_image_url p).
Proof.
  intros Hr Hp. apply reachable_image_on_disk in Hr.
  rewrite Forall_forall in Hr. exact (Hr p Hp).
Qed.

Lemma every_post_has_its_image_witness :
  (exists ext, post_image_url Demo.post_b = post_id Demo.post_b +:+ "." +:+ ext) /\
  is_Some (uploads Demo.st !! post_image_url Demo.post_b).
Proof.
  apply (every_post_has_its_image Demo.st Demo.post_b).
  - exact demo_reachable.
  - exact demo_post_b.
Defined.

(** ** Reacting, and reading back what was written *)

Lemma occurrences_app (e : string) (l l' : list string) :
  occurrences e (l ++ l') = occurrences e l + occurrences e l'.
Proof. unfold occurrences. rewrite List.filter_app, length_app. lia. Qed.

Lemma reactions_of_snoc pid r st st' :
  db_reactions st' = db_reactions st ++ [r] -> reaction_post_id r = pid ->
  reactions_of pid st' = reactions_of pid st ++ [r].
Proof.
  intros E <-. unfold reactions_of. rewrite E, List.filter_app. simpl.
  by rewrite String.eqb_refl.
Qed.

(** X7.  With a token that resolves to a post, react_post appends exactly
    one row for that post to reactions and touches nothing else; in the map
    it returns the count of the submitted emoji is one more than before and
    every other emoji has the count it had. *)
Theorem react_post_counts st token p emoji now :
  find_post token st = Some p ->
  exists st',
    let row := Reaction (db_reactions_seq st + 1) (post_id p) emoji (isoformat now) in
    let before := map reaction_emoji (reactions_of (post_id p) st) in
    react_post token emoji now st
      = (Ok ("Reacted!"%string, reactions (post_stats (post_id p) st')), st') /\
    db_reactions st' = db_reactions st ++ [row] /\
    db_posts st' = db_posts st /\ db_ratings st' = db_ratings st /\
    uploads st' = uploads st /\
    reactions (post_stats (post_id p) st') !! emoji = Some (occurrences emoji before + 1) /\
    (forall e, e <> emoji ->
       reactions (post_stats (post_id p) st') !! e
       = reactions (post_stats (post_id p) st) !! e).
Proof.
  intros F. unfold react_post. rewrite F. eexists. cbn zeta.
  split; [reflexivity|]. unfold insert_reaction. cbn [db_reactions db_posts db_ratings uploads].
  repeat (split; [reflexivity|]).
  set (st' := Store _ _ _ _ _ _).
  assert (E : map reaction_emoji (reactions_of (post_id p) st')
              = map reaction_emoji (reactions_of (post_id p) st) ++ [emoji]).
  { rewrite (reactions_of_snoc (post_id p)
               (Reaction (db_reactions_seq st + 1) (post_id p) emoji (isoformat now)) st st')
      by reflexivity.
    by rewrite map_app. }
  split.
  - rewrite reactions_lookup. cbn zeta. rewrite E, occurrences_app.
    assert (O1 : occurrences emoji [emoji] = 1).
    { unfold occurrences. simpl. by rewrite String.eqb_refl. }
    rewrite O1.
    assert (0 <= occurrences emoji (map reaction_emoji (reactions_of (post_id p) st)))
      by (unfold occurrences; lia).
    rewrite decide_False by lia. reflexivity.
  - intros e Hne. rewrite !reactions_lookup. cbn zeta. rewrite E, occurrences_app.
    assert (O0 : occurrences e [emoji] = 0).
    { unfold occurrences. simpl. apply eqb_false_iff in Hne. by rewrite Hne. }
    rewrite O0, Z.add_0_r. reflexivity.
Qed.

Lemma react_post_counts_witness :
  exists st',
    let row := Reaction (db_reactions_seq Demo.st + 1) (post_id Demo.post_a) "🔥"
                        (isoformat Demo.later) in
    let before := map reaction_emoji (reactions_of (post_id Demo.post_a) Demo.st) in
    react_post Demo.token_a "🔥" Demo.later Demo.st
      = (Ok ("Reacted!"%string, reactions (post_stats (post_id Demo.post_a) st')), st') /\
    db_reactions st' = db_reactions Demo.st ++ [row] /\
    db_posts st' = db_posts Demo.st /\ db_ratings st' = db_ratings Demo.st /\
    uploads st' = uploads Demo.st /\
    reactions (post_stats (post_id Demo.post_a) st') !! "🔥"%string
      = Some (occurrences "🔥" before + 1) /\
    (forall e, e <> "🔥"%string ->
       reactions (post_stats (post_id Demo.post_a) st') !! e
       = reactions (post_stats (post_id Demo.post_a) Demo.st) !! e).
Proof.
  apply (react_post_counts Demo.st Demo.token_a Demo.post_a "🔥" Demo.later).
  vm_compute. reflexivity.
Defined.

(** X8.  What rate_post and react_post return is what a read right after
    shows: get_post under the same token answers with a post whose stats
    are the ones rate_post returned, and whose reactions are the map
    react_post returned. *)
Theorem write_then_get_post :
  (forall token score rater_name now st msg s st' request_base,
      rate_post token score rater_name now st = (Ok (msg, s), st') ->
      exists obj, get_post token request_base st' = (Ok obj, st') /\ po_stats obj = s) /\
  (forall token emoji now st msg m st' request_base,
      react_post token emoji now st = (Ok (msg, m), st') ->
      exists obj, get_post token request_base st' = (Ok obj, st') /\
                  reactions (po_stats obj) = m).
Proof.
  split.
  - intros token score name now st msg s st' base. unfold rate_post, insert_rating.
    destruct (negb _); [discriminate|].
    destruct (find_post token st) as [p|] eqn:F; [|discriminate].
    destruct (_ && _)%bool; [|discriminate].
    intros [= <- <- <-]. unfold get_post.
    change (find_post token (Store _ _ _ _ _ _)) with (find_post token st).
    rewrite F. eexists. split; reflexivity.
  - intros token emoji now st msg m st' base. unfold react_post.
    destruct (find_post token st) as [p|] eqn:F; [|discriminate].
    intros [= <- <- <-]. unfold get_post.
    change (find_post token (insert_reaction _ _ _ st)) with (find_post token st).
    rewrite F. eexists. split; reflexivity.
Qed.

Lemma write_then_get_post_witness :
  exists obj,
    get_post Demo.token_a "http://localhost:8000"
             (snd (rate_post Demo.token_a 7 "cy" Demo.later Demo.st))
    = (Ok obj, snd (rate_post Demo.token_a 7 "cy" Demo.later Demo.st)) /\
    po_stats obj = Stats (Some 78) 4 {[ "🔥"%string := 2; "😍"%string := 1 ]}.
Proof.
  destruct write_then_get_post as [Hrate _].
  apply (Hrate Demo.token_a 7 "cy"%string Demo.later Demo.st "Rated! ✨"%string).
  vm_compute. reflexivity.
Defined.

(** ** Requests leave other posts alone *)

Lemma post_stats_same_rows pid st st' :
  ratings_of pid st' = ratings_of pid st -> reactions_of pid st' = reactions_of pid st ->
  post_stats pid st' = post_stats pid st.
Proof. intros E1 E2. unfold post_stats. by rewrite E1, E2. Qed.

(** X9.  A request changes the stats of no post but the one it rates or
    reacts to: creating, reading and deleting change no stats at all, and a
    rating or reaction for one post leaves the stats of every other id as
    they were. *)
Theorem stats_of_other_posts_untouched r st pid :
  match addressed r with
  | Some t => forall p, find_post t st = Some p -> post_id p <> pid
  | None => True
  end ->
  post_stats pid (handle r st) = post_stats pid st.
Proof.
  destruct r; cbn [addressed handle]; intros H.
  - rewrite create_post_cases. cbn zeta.
    destruct (negb _); [done|].
    destruct (has_char "000" _); [done|].
    destruct (has_char "/" _); [done|].
    unfold insert_post. by destruct (existsb _ _).
  - reflexivity.
  - unfold get_post. by destruct (find_post _ _).
  - unfold rate_post, insert_rating.
    destruct (negb _); [done|].
    destruct (find_post token st) as [p|] eqn:F; [|done].
    destruct (_ && _)%bool; [|done]. cbn [snd].
    apply post_stats_same_rows; [|reflexivity].
    unfold ratings_of. cbn [db_ratings]. rewrite List.filter_app. simpl.
    specialize (H p eq_refl). apply eqb_false_iff in H. rewrite H. apply app_nil_r.
  - unfold react_post.
    destruct (find_post token st) as [p|] eqn:F; [|done]. cbn [snd].
    apply post_stats_same_rows; [reflexivity|].
    unfold reactions_of, insert_reaction. cbn [db_reactions]. rewrite List.filter_app. simpl.
    specialize (H p eq_refl). apply eqb_false_iff in H. rewrite H. apply app_nil_r.
  - apply post_stats_same_tables; apply delete_post_tables.
Qed.

Lemma stats_of_other_posts_untouched_witness :
  post_stats Demo.id_b (handle (RatePost Demo.token_a 3 "cy" Demo.later) Demo.st)
  = post_stats Demo.id_b Demo.st.
Proof.
  apply (stats_of_other_posts_untouched (RatePost Demo.token_a 3 "cy" Demo.later)).
  cbn [addressed]. intros p F.
  assert (E : find_post Demo.token_a Demo.st = Some Demo.post_a) by (vm_compute; reflexivity).
  rewrite E in F. injection F as <-. vm_compute. discriminate.
Defined.

(** ** Deleting one post among others *)

Lemma delete_post_unresolvable st p token pin msg st' :
  consistent st -> p ∈ db_posts st -> names token p ->
  delete_post token pin st = (Ok msg, st') ->
  db_posts st' = List.filter (fun q => negb (String.eqb (post_id q) (post_id p))) (db_posts st) /\
  db_ratings st' = db_ratings st /\ db_reactions st' = db_reactions st /\
  uploads st' = delete (post_image_url p) (uploads st) /\
  forall t, names t p -> find_post t st' = None.
Proof.
  intros Hc Hp Hn.
  rewrite (delete_post_cases token pin st p (find_post_names _ _ _ Hc Hp Hn)).
  destruct (pin_refused _ _); [discriminate|]. intros [= <- <-].
  repeat (split; [reflexivity|]).
  intros t Ht. apply find_post_unknown. simpl. intros q Hq Hnq.
  apply list_elem_of_In, filter_In in Hq as [Hq Hne].
  apply list_elem_of_In in Hq. string_cases.
  assert (F1 := find_post_names st p t Hc Hp Ht).
  assert (F2 := find_post_names st q t Hc Hq Hnq).
  rewrite F1 in F2. injection F2 as ->. by apply Hne.
Qed.

Lemma image_names_differ st p q :
  consistent st -> Forall (image_on_disk st) (db_posts st) ->
  p ∈ db_posts st -> q ∈ db_posts st -> post_id q <> post_id p ->
  post_image_url p <> post_image_url q.
Proof.
  intros (_ & Hok & _) H Hp Hq Hne E.
  rewrite Forall_forall in H, Hok.
  destruct (H q Hq) as [[eq Hnq] _], (H p Hp) as [[ep Hnp] _].
  destruct (Hok p Hp) as (Lp & _), (Hok q Hq) as (Lq & _).
  rewrite Hnp, Hnq in E.
  destruct (append_same_length (post_id p) (post_id q) ("." +:+ ep) ("." +:+ eq))
    as [E' _]; [congruence|exact E|].
  by apply Hne.
Qed.

(** X10.  Deleting one post of a reachable state leaves every other post
    as it was: still retrievable under its share token and its id, with the
    same representation, and with its image file untouched. *)
Theorem delete_post_keeps_other_posts st p q token pin msg st' :
  reachable st -> p ∈ db_posts st -> q ∈ db_posts st -> q <> p -> names token p ->
  delete_post token pin st = (Ok msg, st') ->
  (forall t request_base, names t q ->
     get_post t request_base st' = (Ok (serialize_post q request_base st), st')) /\
  uploads st' !! post_image_url q = uploads st !! post_image_url q.
Proof.
  intros Hr Hp Hq Hqp Hn Hd.
  pose proof (reachable_image_on_disk st Hr) as Himg.
  apply reachable_consistent in Hr.
  assert (Hc' : consistent st').
  { replace st' with (snd (delete_post token pin st)) by (by rewrite Hd).
    by apply delete_post_consistent. }
  destruct (delete_post_unresolvable _ _ _ _ _ _ Hr Hp Hn Hd) as (Eposts & Erat & Erea & Eup & _).
  assert (Hid : post_id q <> post_id p).
  { intros E. apply Hqp. destruct Hr as ((Hnd & _) & _).
    by apply (NoDup_map_inj post_id (db_posts st)). }
  split.
  - intros t base Ht. unfold get_post.
    rewrite (find_post_names st' q t Hc'); [|rewrite Eposts|exact Ht].
    + by rewrite (serialize_post_same_tables q base st st').
    + apply list_elem_of_In, filter_In. split; [by apply list_elem_of_In|].
      apply negb_true_iff. by apply eqb_false_iff.
  - rewrite Eup. apply lookup_delete_ne.
    by apply (image_names_differ st p q).
Qed.

Lemma delete_post_keeps_other_posts_witness :
  (forall t request_base, names t Demo.post_b ->
     get_post t request_base (snd (delete_post Demo.id_a None Demo.st))
     = (Ok (serialize_post Demo.post_b request_base Demo.st),
        snd (delete_post Demo.id_a None Demo.st))) /\
  uploads (snd (delete_post Demo.id_a None Demo.st)) !! post_image_url Demo.post_b
  = uploads Demo.st !! post_image_url Demo.post_b.
Proof.
  apply (delete_post_keeps_other_posts Demo.st Demo.post_a Demo.post_b Demo.id_a None
           "Post deleted ✨"%string).
  - exact demo_reachable.
  - exact demo_post_a.
  - exact demo_post_b.
  - discriminate.
  - right. reflexivity.
  - vm_compute. reflexivity.
Defined.

(** X11.  After a successful deletion from a reachable state the post is no
    longer in the posts table, and every route answers 404 under its share
    token and under its id: deleting again, reacting, rating with a valid
    score, and reading. *)
Theorem deleted_post_is_gone st p token pin msg st' :
  reachable st -> p ∈ db_posts st -> names token p ->
  delete_post token pin st = (Ok msg, st') ->
  (p ∉ db_posts st') /\
  forall t, names t p ->
    (forall pin', delete_post t pin' st' = (HTTPException 404 "Post not found", st')) /\
    (forall emoji now, react_post t emoji now st' = (HTTPException 404 "Post not found", st')) /\
    (forall score rater_name now, 1 <= score <= 10 ->
       rate_post t score rater_name now st' = (HTTPException 404 "Post not found", st')) /\
    (forall request_base,
       get_post t request_base st' = (HTTPException 404 "Post not found", st')).
Proof.
  intros Hr Hp Hn Hd. apply reachable_consistent in Hr.
  destruct (delete_post_unresolvable _ _ _ _ _ _ Hr Hp Hn Hd) as (Eposts & _ & _ & _ & Hgone).
  split.
  - rewrite Eposts. intros Hin. apply list_elem_of_In, filter_In in Hin as [_ Hne].
    rewrite String.eqb_refl in Hne. discriminate Hne.
  - intros t Ht. specialize (Hgone t Ht). repeat split.
    + intros pin'. unfold delete_post. by rewrite Hgone.
    + intros emoji now. unfold react_post. by rewrite Hgone.
    + intros score name now Hs. unfold rate_post. rewrite Hgone.
      assert (E : ((1 <=? score) && (score <=? 10))%bool = true)
        by (apply andb_true_iff; split; lia).
      by rewrite E.
    + intros base. unfold get_post. by rewrite Hgone.
Qed.

Lemma deleted_post_is_gone_witness :
  (Demo.post_a ∉ db_posts (snd (delete_post Demo.token_a None Demo.st))) /\
  forall t, names t Demo.post_a ->
    let st' := snd (delete_post Demo.token_a None Demo.st) in
    (forall pin', delete_post t pin' st' = (HTTPException 404 "Post not found", st')) /\
    (forall emoji now, react_post t emoji now st' = (HTTPException 404 "Post not found", st')) /\
    (forall score rater_name now, 1 <= score <= 10 ->
       rate_post t score rater_name now st' = (HTTPException 404 "Post not found", st')) /\
    (forall request_base,
       get_post t request_base st' = (HTTPException 404 "Post not found", st')).
Proof.
  apply (deleted_post_is_gone Demo.st Demo.post_a Demo.token_a None "Post deleted ✨"%string).
  - exact demo_reachable.
  - exact demo_post_a.
  - left. reflexivity.
  - vm_compute. reflexivity.
Defined.

(** X12.  The PIN a post was created with deletes it: after a successful
    create_post with a non-empty PIN from a reachable state, delete_post
    under either name succeeds with that PIN, and is refused with 403,
    changing nothing, without a PIN and with any PIN whose digest is
    different. *)
Theorem create_with_pin_then_delete u c g pin img r1 r2 now st cr st' :
  reachable st -> valid_datetime now -> pin <> ""%string ->
  create_post u c g (Some pin) img r1 r2 now st = (Ok cr, st') ->
  forall token, token = created_id cr \/ token = created_share_token cr ->
    fst (delete_post token (Some pin) st') = Ok "Post deleted ✨"%string /\
    delete_post token None st' = (HTTPException 403 "Invalid PIN", st') /\
    (forall other, hash_pin other <> hash_pin pin ->
       delete_post token (Some other) st' = (HTTPException 403 "Invalid PIN", st')).
Proof.
  intros Hr Hnow Hpin Hc token Ht.
  assert (Hc' : consistent st').
  { replace st' with (snd (create_post u c g (Some pin) img r1 r2 now st))
      by (by rewrite Hc).
    apply create_post_consistent; [done|by apply reachable_consistent]. }
  destruct (create_post_ok _ _ _ _ _ _ _ _ _ _ _ Hc) as (-> & Hposts & _).
  cbn [created_id created_share_token] in Ht.
  set (row := Post _ _ _ _ _ _ _ _) in Hposts.
  assert (Hrow : row ∈ db_posts st').
  { rewrite Hposts. apply elem_of_app. right. by apply list_elem_of_singleton. }
  assert (Hn : names token row) by (unfold names; cbn [post_id post_share_token row]; tauto).
  assert (Hh : post_pin_hash row = Some (hash_pin pin)).
  { cbn [post_pin_hash row truthy_str]. apply eqb_false_iff in Hpin. by rewrite Hpin. }
  pose proof (pin_refused_false_iff (hash_pin pin)) as Hiff.
  assert (Hdel : forall pin',
    delete_post token pin' st'
    = if pin_refused (Some (hash_pin pin)) pin'
      then (HTTPException 403 "Invalid PIN", st')
      else (Ok "Post deleted ✨"%string,
            delete_post_row (post_id row)
              (set_uploads st' (delete (post_image_url row) (uploads st'))))).
  { intros pin'.
    rewrite (delete_post_cases token pin' st' row (find_post_names _ _ _ Hc' Hrow Hn)).
    by rewrite Hh. }
  split; [|split].
  - rewrite Hdel.
    replace (pin_refused (Some (hash_pin pin)) (Some pin)) with false; [reflexivity|].
    symmetry. apply Hiff; [apply hash_pin_nonempty|]. by exists pin.
  - rewrite Hdel.
    destruct (pin_refused (Some (hash_pin pin)) None) eqn:E; [reflexivity|].
    apply Hiff in E; [|apply hash_pin_nonempty]. by destruct E as (s & [=] & _).
  - intros other Hother. rewrite Hdel.
    destruct (pin_refused (Some (hash_pin pin)) (Some other)) eqn:E; [reflexivity|].
    apply Hiff in E; [|apply hash_pin_nonempty].
    destruct E as (s & [= <-] & _ & E). contradiction.
Qed.

(** ** Tokens *)

(** X13.  In a reachable state no token names two posts: a share token is
    never another post's id, and neither is shared. *)
Theorem token_names_one_post st p q token :
  reachable st -> p ∈ db_posts st -> q ∈ db_posts st ->
  names token p -> names token q -> p = q.
Proof.
  intros Hr Hp Hq Hnp Hnq. apply reachable_consistent in Hr.
  pose proof (find_post_names st p token Hr Hp Hnp) as F1.
  pose proof (find_post_names st q token Hr Hq Hnq) as F2.
  congruence.
Qed.

Lemma token_names_one_post_witness : Demo.post_a = Demo.post_a.
Proof.
  apply (token_names_one_post Demo.st Demo.post_a Demo.post_a Demo.token_a).
  - exact demo_reachable.
  - exact demo_post_a.
  - exact demo_post_a.
  - left. reflexivity.
  - left. reflexivity.
Defined.

Lemma find_post_none_iff token st :
  find_post token st = None <-> (forall p, p ∈ db_posts st -> ~ names token p).
Proof.
  split; [|apply find_post_unknown].
  intros F p Hp [-> | ->]; destruct (find_post_none _ _ F p Hp); congruence.
Qed.

(** X14.  get_post answers 404 exactly when the token matches neither a
    share token nor an id of a stored post, and so does delete_post, whatever
    the PIN; a 404 from delete_post removes nothing. *)
Theorem not_found_iff_unknown_token st token :
  (forall request_base,
     get_post token request_base st = (HTTPException 404 "Post not found", st)
     <-> (forall p, p ∈ db_posts st -> ~ names token p)) /\
  (forall pin,
     delete_post token pin st = (HTTPException 404 "Post not found", st)
     <-> (forall p, p ∈ db_posts st -> ~ names token p)).
Proof.
  split; intros x; rewrite <- find_post_none_iff.
  - unfold get_post. destruct (find_post token st); split; (done || discriminate).
  - unfold delete_post. destruct (find_post token st) as [p|]; [|done].
    destruct (pin_refused _ _); split; discriminate.
Qed.

(** X23.  rate_post has three outcomes and no other: 400 exactly when the
    score is outside 1..10, 404 exactly when the score is inside and the
    token resolves to no post, and success otherwise; in particular the CHECK
    constraint of the ratings table never fires. *)
Theorem rate_post_outcomes token score rater_name now st :
  (fst (rate_post token score rater_name now st) = HTTPException 400 "Score must be 1-10"
   <-> score < 1 \/ 10 < score) /\
  (fst (rate_post token score rater_name now st) = HTTPException 404 "Post not found"
   <-> 1 <= score <= 10 /\ find_post token st = None) /\
  ((exists body, fst (rate_post token score rater_name now st) = Ok body)
   <-> 1 <= score <= 10 /\ exists p, find_post token st = Some p) /\
  (forall exc, fst (rate_post token score rater_name now st) <> Uncaught exc).
Proof.
  unfold rate_post, insert_rating.
  destruct ((1 <=? score) && (score <=? 10))%bool eqn:E; cbn [negb].
  - apply andb_true_iff in E as [E1%Z.leb_le E2%Z.leb_le].
    destruct (find_post token st) as [p|]; cbn [fst].
    + split; [|split; [|split]].
      * split; [discriminate|lia].
      * split; [discriminate|]. intros [_ F]. discriminate F.
      * split; [intros _; split; [lia|by exists p]|intros _; by eexists].
      * discriminate.
    + split; [|split; [|split]].
      * split; [discriminate|lia].
      * split; [intros _; split; [lia|reflexivity]|reflexivity].
      * split; [intros [body B]; discriminate B|intros [_ [p F]]; discriminate F].
      * discriminate.
  - assert (Hout : score < 1 \/ 10 < score).
    { apply andb_false_iff in E as [E%Z.leb_gt | E%Z.leb_gt]; lia. }
    cbn [fst]. split; [|split; [|split]].
    + split; [by intros _|reflexivity].
    + split; [discriminate|lia].
    + split; [intros [body B]; discriminate B|lia].
    + discriminate.
Qed.

(** ** The average stays in range *)

Section AverageRange.

Variables s n : Z.
Hypothesis n_pos : 0 < n.
Hypothesis mean_range : n <= s <= 10 * n.

Lemma round1_div_int_range :
  10 <= Binary64.round1 (Binary64.div_int s n) <= 100.
Proof.
  destruct (div_int_shape s n n_pos mean_range) as (c & Hc & He & Hpow & Hm).
  unfold Binary64.round1.
  destruct (Z.leb_spec 0 (Binary64.exponent (Binary64.div_int s n))); [lia|].
  rewrite Hpow.
  set (m := Binary64.mantissa (Binary64.div_int s n)) in *.
  assert (Hcpos : 4 <= c) by (destruct Hc as [-> | [-> | [-> | ->]]]; lia).
  pose proof (rne_div_spec (10 * m) c ltac:(lia)) as Hd.
  set (d := Binary64.rne_div (10 * m) c) in *.
  assert (Hlo : c <= m) by nia.
  assert (Hhi : m <= 10 * c) by nia.
  split; nia.
Qed.

End AverageRange.

(** X15.  In a reachable state an avg_rating that is not null lies between
    1.0 and 10.0 (10 and 100 tenths), however many ratings there are. *)
Theorem avg_rating_between_1_and_10 st pid d :
  reachable st -> avg_rating (post_stats pid st) = Some d -> 10 <= d <= 100.
Proof.
  intros Hr Hd. apply reachable_consistent in Hr as (_ & _ & Hok).
  destruct (avg_rating_cases pid st Hok) as [[_ E] | (Hn & Hs & E)];
    rewrite E in Hd; [discriminate|].
  injection Hd as <-. by apply round1_div_int_range.
Qed.

Lemma avg_rating_between_1_and_10_witness : 10 <= 80 <= 100.
Proof.
  apply (avg_rating_between_1_and_10 Demo.st Demo.id_a 80).
  - exact demo_reachable.
  - vm_compute. reflexivity.
Defined.

(** ** Printed timestamps *)

Lemma string_compare_refl (s : string) : String.compare s s = Eq.
Proof.
  pose proof (String.compare_antisym s s) as H.
  destruct (String.compare s s); simpl in H; congruence.
Qed.

Lemma lex_eq (c rest : comparison) : lex c rest = Eq -> c = Eq /\ rest = Eq.
Proof. destruct c; simpl; auto; discriminate. Qed.

(** X16.  For datetimes within Python's ranges, one isoformat string sorts
    before another as TEXT exactly when its datetime is the earlier one, with
    and without the microsecond part, and two datetimes print the same
    string only when they are equal. *)
Theorem isoformat_order (a b : datetime) :
  valid_datetime a -> valid_datetime b ->
  (String.ltb (isoformat a) (isoformat b) = true <-> datetime_compare a b = Lt) /\
  (isoformat a = isoformat b -> a = b).
Proof.
  intros Va Vb. pose proof (isoformat_compare a b Va Vb) as H. split.
  - unfold String.ltb. rewrite H. destruct (datetime_compare a b); split; congruence.
  - intros E. rewrite E, string_compare_refl in H. symmetry in H.
    unfold datetime_compare in H.
    repeat (apply lex_eq in H; destruct H as [?%Z.compare_eq H]).
    apply Z.compare_eq in H. destruct a, b; simpl in *. congruence.
Qed.

Lemma isoformat_order_witness :
  (String.ltb (isoformat Demo.noon) (isoformat Demo.later) = true
   <-> datetime_compare Demo.noon Demo.later = Lt) /\
  (isoformat Demo.noon = isoformat Demo.later -> Demo.noon = Demo.later).
Proof.
  apply (isoformat_order Demo.noon Demo.later);
    unfold valid_datetime; simpl; lia.
Defined.

(** ** File extensions *)

Lemma has_char_cons (c x : ascii) (s : string) :
  has_char c (String x s) = Ascii.eqb c x || has_char c s.
Proof. reflexivity. Qed.

Lemma after_last_dot_spec (f : string) :
  match after_last_dot f with
  | Some e => has_char "." e = false /\ exists stem, f = stem +:+ "." +:+ e
  | None => has_char "." f = false
  end.
Proof.
  induction f as [|x f IH]; [reflexivity|]. cbn [after_last_dot].
  destruct (after_last_dot f) as [e|].
  - destruct IH as [He [stem ->]]. split; [exact He|]. by exists (String x stem).
  - destruct (Ascii.eqb_spec x ".") as [->|Hne]; cbv beta iota.
    + split; [exact IH|]. by exists ""%string.
    + rewrite has_char_cons, IH, orb_false_r. apply Ascii.eqb_neq. congruence.
Qed.

(** X17.  The stored file's extension is "jpg" when the uploaded name has no
    dot; otherwise it is what follows the last dot: it has no dot itself and
    the uploaded name is a stem, a dot and the extension (which is empty
    when the name ends in a dot). *)
Theorem extension_of_filename (f : string) :
  if has_char "." f
  then has_char "." (extension f) = false /\ exists stem, f = stem +:+ "." +:+ extension f
  else extension f = "jpg"%string.
Proof.
  pose proof (after_last_dot_spec f) as H. unfold extension.
  destruct (after_last_dot f) as [e|].
  - destruct H as [He [stem E]].
    assert (Hdot : has_char "." f = true).
    { rewrite E. clear. induction stem as [|x stem IH]; [reflexivity|].
      change (String x stem +:+ "." +:+ e) with (String x (stem +:+ "." +:+ e)).
      rewrite has_char_cons, IH. apply orb_true_r. }
    rewrite Hdot. split; [exact He|by exists stem].
  - by rewrite H.
Qed.

(** ** Row ids and the growth of the tables *)

Lemma consecutive_snoc (ids : list Z) :
  consecutive_from_1 ids ->
  consecutive_from_1 (ids ++ [Z.of_nat (length ids) + 1]).
Proof.
  unfold consecutive_from_1. intros H.
  rewrite length_app. simpl. rewrite Nat.add_1_r, seq_S, map_app. simpl.
  rewrite <- H. do 2 f_equal. lia.
Qed.

Lemma handle_autoincrement r st : autoincrement_ok st -> autoincrement_ok (handle r st).
Proof.
  intros (R1 & R2 & E1 & E2). destruct r; cbn [handle].
  - rewrite create_post_cases. cbn zeta.
    destruct (negb _); [done|].
    destruct (has_char "000" _); [done|].
    destruct (has_char "/" _); [done|].
    unfold insert_post. by destruct (existsb _ _).
  - done.
  - unfold get_post. by destruct (find_post _ _).
  - unfold rate_post, insert_rating.
    destruct (negb _); [done|].
    destruct (find_post _ _); [|done].
    destruct (_ && _)%bool; [|done].
    split; [|split]; cbn [snd db_ratings db_ratings_seq db_reactions db_reactions_seq].
    + rewrite map_app. simpl. rewrite R2, <- (length_map rating_id).
      by apply consecutive_snoc.
    + rewrite length_app, R2. simpl. lia.
    + done.
  - unfold react_post.
    destruct (find_post _ _); [|done]. unfold insert_reaction.
    split; [|split; [|split]];
      cbn [snd db_ratings db_ratings_seq db_reactions db_reactions_seq]; [done|done| |].
    + rewrite map_app. simpl. rewrite E2, <- (length_map reaction_id).
      by apply consecutive_snoc.
    + rewrite length_app, E2. simpl. lia.
  - destruct (delete_post_tables token pin st) as [T1 T2].
    unfold autoincrement_ok. rewrite T1, T2.
    unfold delete_post. destruct (find_post _ _); [|done].
    by destruct (pin_refused _ _).
Qed.

(** X18.  In every reachable state the ids of the rating rows are 1, 2, 3,
    ... in insertion order, and so are those of the reaction rows: no id is
    used twice, and each sequence counter equals its table's size. *)
Theorem row_ids_are_consecutive st :
  reachable st ->
  map rating_id (db_ratings st) = map Z.of_nat (seq 1 (length (db_ratings st))) /\
  map reaction_id (db_reactions st) = map Z.of_nat (seq 1 (length (db_reactions st))) /\
  db_ratings_seq st = Z.of_nat (length (db_ratings st)) /\
  db_reactions_seq st = Z.of_nat (length (db_reactions st)).
Proof.
  intros Hr.
  assert (H : autoincrement_ok st).
  { induction Hr as [|st r _ IH _]; [by repeat split|by apply handle_autoincrement]. }
  destruct H as (R1 & R2 & E1 & E2). unfold consecutive_from_1 in R1, E1.
  rewrite length_map in R1, E1. auto.
Qed.

Lemma row_ids_are_consecutive_witness :
  map rating_id (db_ratings Demo.st) = map Z.of_nat (seq 1 (length (db_ratings Demo.st))) /\
  map reaction_id (db_reactions Demo.st)
  = map Z.of_nat (seq 1 (length (db_reactions Demo.st))) /\
  db_ratings_seq Demo.st = Z.of_nat (length (db_ratings Demo.st)) /\
  db_reactions_seq Demo.st = Z.of_nat (length (db_reactions Demo.st)).
Proof. apply (row_ids_are_consecutive Demo.st). exact demo_reachable. Defined.

(** X19.  No request removes or rewrites a rating or a reaction: after any
    request the two tables are the old ones with at most one row appended
    in all, and deletion appends none. *)
Theorem ratings_and_reactions_only_grow r st :
  exists new_ratings new_reactions,
    db_ratings (handle r st) = db_ratings st ++ new_ratings /\
    db_reactions (handle r st) = db_reactions st ++ new_reactions /\
    (length new_ratings + length new_reactions <= 1)%nat /\
    match r with
    | DeletePost _ _ => new_ratings = [] /\ new_reactions = []
    | _ => True
    end.
Proof.
  assert (Same : forall st', db_ratings st' = db_ratings st -> db_reactions st' = db_reactions st ->
    exists new_ratings new_reactions,
      db_ratings st' = db_ratings st ++ new_ratings /\
      db_reactions st' = db_reactions st ++ new_reactions /\
      (length new_ratings + length new_reactions <= 1)%nat /\
      new_ratings = [] /\ new_reactions = []).
  { intros st' E1 E2. exists [], []. rewrite !app_nil_r. simpl. auto with lia. }
  destruct r; cbn [handle].
  - destruct (Same (snd (create_post username caption category pin image rnd1 rnd2 now st)))
      as (a & b & ? & ? & ? & _); [| |by exists a, b].
    + rewrite create_post_cases. cbn zeta.
      destruct (negb _); [done|]. destruct (has_char "000" _); [done|].
      destruct (has_char "/" _); [done|]. unfold insert_post. by destruct (existsb _ _).
    + rewrite create_post_cases. cbn zeta.
      destruct (negb _); [done|]. destruct (has_char "000" _); [done|].
      destruct (has_char "/" _); [done|]. unfold insert_post. by destruct (existsb _ _).
  - destruct (Same st) as (a & b & ? & ? & ? & _); [done|done|by exists a, b].
  - destruct (Same (snd (get_post token request_base st))) as (a & b & ? & ? & ? & _);
      [unfold get_post; by destruct (find_post _ _)..|by exists a, b].
  - unfold rate_post, insert_rating.
    destruct (negb _); [destruct (Same st) as (a & b & ? & ? & ? & _); [done|done|by exists a, b]|].
    destruct (find_post _ _) as [p|];
      [|destruct (Same st) as (a & b & ? & ? & ? & _); [done|done|by exists a, b]].
    destruct (_ && _)%bool;
      [|destruct (Same st) as (a & b & ? & ? & ? & _); [done|done|by exists a, b]].
    eexists [_], []. cbn [snd db_ratings db_reactions]. rewrite app_nil_r. simpl. auto.
  - unfold react_post.
    destruct (find_post _ _) as [p|];
      [|destruct (Same st) as (a & b & ? & ? & ? & _); [done|done|by exists a, b]].
    eexists [], [_]. unfold insert_reaction. cbn [snd db_ratings db_reactions].
    rewrite app_nil_r. simpl. auto.
  - destruct (delete_post_tables token pin st) as [T1 T2].
    destruct (Same (snd (delete_post token pin st)) T1 T2) as (a & b & ? & ? & ? & ?).
    by exists a, b.
Qed.

(** ** Digests, ids and tokens are plain hexadecimal *)

Lemma all_chars_cons (f : ascii -> bool) (c : ascii) (s : string) :
  all_chars f (String c s) = f c && all_chars f s.
Proof. reflexivity. Qed.

Lemma is_hex_nibble (i x : Z) : is_hex (Hex.nibble i x) = true.
Proof.
  unfold Hex.nibble.
  pose proof (Z.mod_pos_bound (x / 16 ^ i) 16 ltac:(lia)) as H.
  set (d := (x / 16 ^ i) mod 16) in *.
  assert (Hd : d = 0 \/ d = 1 \/ d = 2 \/ d = 3 \/ d = 4 \/ d = 5 \/ d = 6 \/ d = 7 \/
               d = 8 \/ d = 9 \/ d = 10 \/ d = 11 \/ d = 12 \/ d = 13 \/ d = 14 \/ d = 15)
    by lia.
  clearbody d. repeat (destruct Hd as [-> | Hd]; [reflexivity|]). subst d. reflexivity.
Qed.

Lemma is_hex_or_dash_nibble (i x : Z) : is_hex_or_dash (Hex.nibble i x) = true.
Proof. unfold is_hex_or_dash. by rewrite is_hex_nibble. Qed.

(** X20.  hash_pin always yields 64 characters, each a digit or a letter
    from a to f: never the empty string, so a stored digest is never taken
    for a missing one. *)
Theorem hash_pin_is_64_hex_digits (pin : string) :
  String.length (hash_pin pin) = 64%nat /\ all_chars is_hex (hash_pin pin) = true.
Proof.
  split; [apply hash_pin_length|].
  unfold hash_pin, SHA256.hexdigest, SHA256.hex, SHA256.hex8.
  generalize (SHA256.digest (SHA256.bytes_of_string pin)). intros h.
  rewrite !all_chars_cons, !is_hex_nibble. reflexivity.
Qed.

Lemma uuid_str_charset (u : Z) :
  all_chars is_hex_or_dash (UUID.str u) = true /\
  all_chars is_hex (String.substring 0 8 (UUID.str u)) = true.
Proof.
  cbv [UUID.str Hex.digits List.map String.string_of_list_ascii String.append
       String.substring].
  rewrite !all_chars_cons, !is_hex_or_dash_nibble, !is_hex_nibble. split; reflexivity.
Qed.

(** X21.  The id and the share token create_post hands out are made of
    hexadecimal digits only (the id also of dashes), whatever the random
    bytes: either can be put in a URL path as it is. *)
Theorem created_names_are_hex u c g pin img r1 r2 now st cr st' :
  create_post u c g pin img r1 r2 now st = (Ok cr, st') ->
  all_chars is_hex_or_dash (created_id cr) = true /\
  all_chars is_hex (created_share_token cr) = true.
Proof.
  intros Hc. destruct (create_post_ok _ _ _ _ _ _ _ _ _ _ _ Hc) as (-> & _).
  cbn [created_id created_share_token].
  split; [apply (uuid_str_charset (UUID.uuid4 r1))|apply (uuid_str_charset (UUID.uuid4 r2))].
Qed.

(** ** Listing and reading agree *)

(** X22.  In a reachable state get_posts returns one object per stored
    post, every stored post is among them, and each object is exactly what
    get_post answers under that object's id and under its share token. *)
Theorem get_posts_agrees_with_get_post st request_base :
  reachable st ->
  exists objs,
    get_posts request_base st = (Ok objs, st) /\
    length objs = length (db_posts st) /\
    (forall p, p ∈ db_posts st -> serialize_post p request_base st ∈ objs) /\
    (forall obj, obj ∈ objs ->
       get_post (po_id obj) request_base st = (Ok obj, st) /\
       get_post (po_share_token obj) request_base st = (Ok obj, st)).
Proof.
  intros Hr. apply reachable_consistent in Hr.
  pose proof (merge_sort_Permutation created_at_desc (db_posts st)) as Hperm.
  eexists. split; [reflexivity|]. split; [|split].
  - by rewrite length_map, Hperm.
  - intros p Hp.
    apply (list_elem_of_fmap_2 (fun r => serialize_post r request_base st)).
    by rewrite Hperm.
  - intros obj Hobj.
    apply list_elem_of_fmap in Hobj as (p & -> & Hp). rewrite Hperm in Hp.
    unfold get_post. cbn [po_id po_share_token serialize_post].
    rewrite (find_post_names st p (post_id p) Hr Hp (or_intror eq_refl)).
    rewrite (find_post_names st p (post_share_token p) Hr Hp (or_introl eq_refl)).
    split; reflexivity.
Qed.

Lemma get_posts_agrees_with_get_post_witness :
  exists objs,
    get_posts "http://localhost:8000" Demo.st = (Ok objs, Demo.st) /\
    length objs = length (db_posts Demo.st) /\
    (forall p, p ∈ db_posts Demo.st ->
       serialize_post p "http://localhost:8000" Demo.st ∈ objs) /\
    (forall obj, obj ∈ objs ->
       get_post (po_id obj) "http://localhost:8000" Demo.st = (Ok obj, Demo.st) /\
       get_post (po_share_token obj) "http://localhost:8000" Demo.st = (Ok obj, Demo.st)).
Proof.
  apply (get_posts_agrees_with_get_post Demo.st "http://localhost:8000").
  exact demo_reachable.
Defined.

(** ** The theorems about create_post at the concrete run *)

Lemma later_outcome :
  Later.outcome
  = (Ok (Created Later.id_c Later.token_c ("/rate/" +:+ Later.token_c)), snd Later.outcome).
Proof. vm_compute. reflexivity. Qed.

Lemma later_clock : valid_datetime Demo.later.
Proof. unfold valid_datetime. simpl. lia. Qed.

Lemma create_post_then_get_post_witness :
  String.length Later.id_c = 36%nat /\
  String.length Later.token_c = 8%nat /\
  "/rate/" +:+ Later.token_c = "/rate/" +:+ Later.token_c /\
  forall token request_base,
    token = Later.id_c \/ token = Later.token_c ->
    get_post token request_base (snd Later.outcome)
    = (Ok (PostObject Later.id_c "cy" "fresh set" "nails"
             (request_base +:+ "/uploads/" +:+ stored_name Later.id_c "nails")
             Later.token_c (isoformat Demo.later)
             (post_stats Later.id_c Demo.st)),
       snd Later.outcome).
Proof.
  apply (create_post_then_get_post "cy" "fresh set" "nails" (Some "open sesame"%string)
           Later.upload 0x0123456789abcdef0123456789abcdef
           0xfeedf00d000000000000000000000000 Demo.later Demo.st
           (Created Later.id_c Later.token_c ("/rate/" +:+ Later.token_c))
           (snd Later.outcome)).
  - exact demo_reachable.
  - exact later_clock.
  - exact later_outcome.
Defined.

Lemma create_post_stores_upload_witness :
  uploads (snd Later.outcome) !! stored_name Later.id_c "nails"
    = Some [Byte.xff; Byte.xd8; Byte.xff] /\
  (forall name, name <> stored_name Later.id_c "nails" ->
                uploads (snd Later.outcome) !! name = uploads Demo.st !! name) /\
  db_ratings (snd Later.outcome) = db_ratings Demo.st /\
  db_reactions (snd Later.outcome) = db_reactions Demo.st.
Proof.
  apply (create_post_stores_upload "cy" "fresh set" "nails" (Some "open sesame"%string)
           Later.upload 0x0123456789abcdef0123456789abcdef
           0xfeedf00d000000000000000000000000 Demo.later Demo.st
           (Created Later.id_c Later.token_c ("/rate/" +:+ Later.token_c))).
  exact later_outcome.
Defined.


Lemma create_post_keeps_existing_posts_witness :
  get_post Demo.token_a "http://localhost:8000" (snd Later.outcome)
  = (Ok (serialize_post Demo.post_a "http://localhost:8000" Demo.st), snd Later.outcome).
Proof.
  apply (create_post_keeps_existing_posts "cy" "fresh set" "nails"
           (Some "open sesame"%string) Later.upload 0x0123456789abcdef0123456789abcdef
           0xfeedf00d000000000000000000000000 Demo.later Demo.st Demo.token_a Demo.post_a).
  vm_compute. reflexivity.
Defined.

Lemma create_with_pin_then_delete_witness :
  fst (delete_post Later.token_c (Some "open sesame"%string) (snd Later.outcome))
    = Ok "Post deleted ✨"%string /\
  delete_post Later.token_c None (snd Later.outcome)
    = (HTTPException 403 "Invalid PIN", snd Later.outcome) /\
  (forall other, hash_pin other <> hash_pin "open sesame" ->
     delete_post Later.token_c (Some other) (snd Later.outcome)
     = (HTTPException 403 "Invalid PIN", snd Later.outcome)).
Proof.
  apply (create_with_pin_then_delete "cy" "fresh set" "nails" "open sesame" Later.upload
           0x0123456789abcdef0123456789abcdef 0xfeedf00d000000000000000000000000
           Demo.later Demo.st
           (Created Later.id_c Later.token_c ("/rate/" +:+ Later.token_c))
           (snd Later.outcome)).
  - exact demo_reachable.
  - exact later_clock.
  - discriminate.
  - exact later_outcome.
  - right. reflexivity.
Defined.

Lemma created_names_are_hex_witness :
  all_chars is_hex_or_dash Later.id_c = true /\ all_chars is_hex Later.token_c = true.
Proof.
  apply (created_names_are_hex "cy" "fresh set" "nails" (Some "open sesame"%string)
           Later.upload 0x0123456789abcdef0123456789abcdef
           0xfeedf00d000000000000000000000000 Demo.later Demo.st
           (Created Later.id_c Later.token_c ("/rate/" +:+ Later.token_c))
           (snd Later.outcome)).
  exact later_outcome.
Defined.
